(** * tiro-tts text frontend: tokenizer, realigner and G2P translator chain

  A shallow embedding of [src/frontend/normalization.py] and
  [src/frontend/grapheme_to_phoneme.py], and the properties of the
  frontend pipeline that follow from it.

  Python values are modelled as follows.
  - [str] is a list of Unicode code points ([N]); byte offsets are
    computed on the UTF-8 encoding of such a list.
  - [Word] objects are records; where the code mutates Word objects
    in place ([translate_words]) they live in a heap indexed by
    references.
  - a [dict] is a [gmap]; a Python list indexed by position is a list
    read with [!!], an index out of range being an [IndexError].
  - an exception is a value of [PyError] returned next to the output
    produced so far. *)

From Stdlib Require Import NArith List Bool Lia Strings.String Strings.Ascii.
From stdpp Require Import base option list gmap strings.

Import ListNotations.
Local Open Scope nat_scope.

(** ** Python strings *)

Module PyStr.

(** A Python [str]: a sequence of code points. *)
Abbreviation str := (list N).

(** The code points of an ASCII literal. *)
Definition lit (s : string) : str :=
  map N_of_ascii (list_ascii_of_string s).
Arguments lit s%_string.

(** [str.isspace] for one character: the characters Python's
    [strip()] and [split()] treat as whitespace. *)
Definition isspace (c : N) : bool :=
  ((9 <=? c) && (c <=? 13) || (28 <=? c) && (c <=? 32)
   || (c =? 133) || (c =? 160) || (c =? 5760)
   || (8192 <=? c) && (c <=? 8202)
   || (c =? 8232) || (c =? 8233) || (c =? 8239) || (c =? 8287)
   || (c =? 12288))%N.

Fixpoint lstrip (s : str) : str :=
  match s with
  | c :: s' => if isspace c then lstrip s' else s
  | [] => []
  end.

Definition rstrip (s : str) : str := rev (lstrip (rev s)).

(** [s.strip()] *)
Definition strip (s : str) : str := rstrip (lstrip s).

(** [s.startswith(c)] and [s.endswith(c)] for a one-character [c]. *)
Definition startswith (s : str) (c : N) : bool :=
  match s with
  | c' :: _ => (c' =? c)%N
  | [] => false
  end.

Definition endswith (s : str) (c : N) : bool := startswith (rev s) c.

(** ["".join(l)] *)
Definition join (l : list str) : str := concat l.

(** [s.split()]: the maximal runs of non-whitespace characters.
    [cur] is the run being read, in reverse. *)
Fixpoint split_from (cur : str) (s : str) : list str :=
  match s with
  | [] => match cur with [] => [] | _ => [rev cur] end
  | c :: s' =>
      if isspace c
      then match cur with
           | [] => split_from [] s'
           | _ => rev cur :: split_from [] s'
           end
      else split_from (c :: cur) s'
  end.

Definition split (s : str) : list str := split_from [] s.

(** [s[a:b]] for non-negative [a] and [b]. *)
Definition slice {A} (a b : nat) (s : list A) : list A := drop a (take b s).

(** Truth value of a Python sequence: non-empty. *)
Definition truthy {A} (l : list A) : bool :=
  match l with [] => false | _ => true end.

(** The UTF-8 encoding of one code point (RFC 3629), as byte values. *)
Definition utf8_char (c : N) : list N :=
  (if c <? 128 then [c]
   else if c <? 2048 then [192 + c / 64; 128 + c mod 64]
   else if c <? 65536
        then [224 + c / 4096; 128 + (c / 64) mod 64; 128 + c mod 64]
        else [240 + c / 262144; 128 + (c / 4096) mod 64;
              128 + (c / 64) mod 64; 128 + c mod 64])%N.

(** [s.encode("utf-8")] *)
Definition encode (s : str) : list N := flat_map utf8_char s.

(** Modelled from the spec: [utf8_byte_length] of
    [src/frontend/common.py], which is not among the sources; the
    spec has the offsets count the UTF-8 bytes of the text. *)
Definition utf8_byte_length (s : str) : nat := length (encode s).

Definition open_brace : N := 123.
Definition close_brace : N := 125.

End PyStr.

Import PyStr.

(** ** Words *)

Module Words.

(** Modelled from the spec: the SSML annotation of a Word
    ([src/frontend/words.py] and [src/frontend/ssml.py] are not among
    the sources): the tag type, the multi-word flag read by
    [is_multi()], and the prosody values. *)
Record SSMLProps := {
  tag_type : str;
  multi : bool;
  rate : str;
  pitch : str;
  volume : str
}.

Definition is_multi (p : SSMLProps) : bool := multi p.

(** Modelled from the spec: the [Word] dataclass of
    [src/frontend/words.py], with the fields and keyword defaults its
    callers use. *)
Record Word := {
  original_symbol : str;
  symbol : str;
  phone_sequence : list str;
  start_byte_offset : nat;
  end_byte_offset : nat;
  ssml_props : option SSMLProps
}.

(** [Word()] with the keyword arguments the sources pass. *)
Definition mkWord (original_symbol symbol : str) (phone_sequence : list str)
    (start_byte_offset end_byte_offset : nat) : Word :=
  {| original_symbol := original_symbol; symbol := symbol;
     phone_sequence := phone_sequence;
     start_byte_offset := start_byte_offset;
     end_byte_offset := end_byte_offset;
     ssml_props := None |}.

(** The sentinel: a default initialized Word. *)
Definition WORD_SENTENCE_SEPARATOR : Word := mkWord [] [] [] 0 0.

#[export] Instance SSMLProps_eq_dec : EqDecision SSMLProps.
Proof. solve_decision. Defined.

#[export] Instance Word_eq_dec : EqDecision Word.
Proof. solve_decision. Defined.

(** Modelled from the spec: [Word.is_from_ssml()]; a Word originates
    from markup when it carries the optional SSML annotation. *)
Definition is_from_ssml (w : Word) : bool :=
  match ssml_props w with Some _ => true | None => false end.

Definition set_phone_sequence (w : Word) (ps : list str) : Word :=
  {| original_symbol := original_symbol w; symbol := symbol w;
     phone_sequence := ps;
     start_byte_offset := start_byte_offset w;
     end_byte_offset := end_byte_offset w;
     ssml_props := ssml_props w |}.

End Words.

Import Words.

(** Exceptions the modelled code can raise. *)
Inductive PyError :=
| ValueError
| IndexError
| AttributeError
| RuntimeError      (* a [StopIteration] escaping a generator body *)
| ExternalError.    (* raised by an external collaborator *)

(** ** Tokenizer/Normalizer ([normalization.py]) *)

Module Normalization.

(** The token kinds of the external [tokenizer] package that the
    code distinguishes ([TOK.S_END]), and some of the others. *)
Inductive TOK :=
| PUNCTUATION | WORD | NUMBER | UNKNOWN | S_BEGIN | S_END.

#[export] Instance TOK_eq_dec : EqDecision TOK.
Proof. solve_decision. Defined.

(** A [tokenizer.Tok], with the attributes the code reads:
    [original] is the stretch of input the token was read from
    (with the whitespace before it), [origin_spans] the index in
    [original] of each character of the token's text; both may be
    [None]. *)
Record Tok := {
  kind : TOK;
  original : option str;
  origin_spans : option (list nat)
}.

(** [not x] for an optional sequence: [None] and the empty sequence
    are both false. *)
Definition falsy {A} (x : option (list A)) : bool :=
  match x with
  | Some (_ :: _) => false
  | _ => true
  end.

(** The loop of [add_token_offsets], from a value of
    [n_bytes_consumed]. *)
Fixpoint add_token_offsets_from (n_bytes_consumed : nat) (tokens : list Tok)
    : list (Tok * nat * nat) :=
  match tokens with
  | [] => []
  | tok :: tokens' =>
      if decide (kind tok = S_END)
      then (tok, 0, 0) :: add_token_offsets_from n_bytes_consumed tokens'
      else if falsy (origin_spans tok) || falsy (original tok)
      then add_token_offsets_from n_bytes_consumed tokens'
      else
        let orig := default [] (original tok) in
        let spans := default [] (origin_spans tok) in
        let first := hd 0 spans in
        let last := List.last spans 0 in
        let start_offset :=
          n_bytes_consumed + utf8_byte_length (take first orig) in
        let end_offset :=
          start_offset + utf8_byte_length (slice first (last + 1) orig) in
        (tok, start_offset, end_offset)
          :: add_token_offsets_from
               (n_bytes_consumed + utf8_byte_length orig) tokens'
  end.

Definition add_token_offsets (tokens : list Tok) : list (Tok * nat * nat) :=
  add_token_offsets_from 0 tokens.

(** The loop of [_tokenize] over the tokens with their offsets; the
    two loop variables are the scanner state. A token that reaches
    the [strip()] has an [original], [add_token_offsets] having
    dropped the others. *)
Fixpoint tokenize_loop (current_word_segments : list str)
    (phoneme_str_open : bool) (toks : list (Tok * nat * nat)) : list Word :=
  match toks with
  | [] => []
  | (tok, start_byte_offset, end_byte_offset) :: toks' =>
      if decide (kind tok = S_END)
      then tokenize_loop current_word_segments phoneme_str_open toks'
      else
        let w := strip (default [] (original tok)) in
        if phoneme_str_open then
          let segments := current_word_segments ++ [w] in
          if endswith w close_brace
          then mkWord (join segments) (join segments) []
                      start_byte_offset end_byte_offset
                 :: tokenize_loop [] false toks'
          else tokenize_loop segments true toks'
        else
          if startswith w open_brace && negb (endswith w close_brace)
          then tokenize_loop (current_word_segments ++ [w]) true toks'
          else mkWord w w [] start_byte_offset end_byte_offset
                 :: tokenize_loop current_word_segments false toks'
  end.

(** [_tokenize], on the tokens [tokenizer.tokenize_without_annotation]
    returned for the text. *)
Definition tokenize_tokens (tokens : list Tok) : list Word :=
  tokenize_loop [] false (add_token_offsets tokens).

Section Tokenize.
(** The external tokenizer. *)
Variable tokenize_without_annotation : str -> list Tok.

Definition _tokenize (text : str) : list Word :=
  tokenize_tokens (tokenize_without_annotation text).
End Tokenize.

Module BasicNormalizer.
Definition normalize (tokenize_without_annotation : str -> list Tok)
    (text : str) (text_is_ssml : bool) : list Word :=
  _tokenize tokenize_without_annotation text.
End BasicNormalizer.

(** *** The remote-normalization realigner *)

Module GrammatekNormalizer.

(** The variables of the loop of [normalize] that outlive one
    iteration. *)
Record cursor := {
  n_bytes_consumed : nat;
  text_view : str;
  p_idx : nat
}.

(** What a stretch of the generator body leaves: the Words yielded,
    and then either the exception that ended it or the loop state. *)
Definition outcome : Type := list Word * (PyError + cursor).

Definition yield_then (w : Word) (k : outcome) : outcome :=
  (w :: fst k, snd k).

Section Normalize.
(** [Word.is_spoken] ([src/frontend/words.py]) and
    [consume_whitespace] ([src/frontend/common.py]) are not among the
    sources. *)
Variable is_spoken : Word -> bool.
Variable consume_whitespace : str -> bool -> nat * nat.

(** Lines 176-179 and 186: what a spoken markup token reads from
    [parsed_text[p_idx]]: whether it is a multi-word phoneme tag, the
    text that replaces [original] if so, and the phone sequence. *)
Definition markup_lookup (parsed_text : list Word) (p_idx : nat)
    (original : str) : PyError + (bool * str * list str) :=
  match parsed_text !! p_idx with
  | None => inl IndexError
  | Some parsed =>
      match ssml_props parsed with
      | None => inl AttributeError
      | Some props =>
          let phoneme_multi :=
            bool_decide (tag_type props = lit "phoneme") && is_multi props in
          inr (phoneme_multi,
               if phoneme_multi then original_symbol parsed else original,
               phone_sequence parsed)
      end
  end.

(** The inner loop, [for original, normalized in sent_iter], on what
    is left of the iterator. [next(islice(sent_iter, skip_length))]
    takes one item off the iterator when [skip_length] is positive and
    the iterator is not exhausted, and otherwise raises
    [StopIteration], which leaves the generator as a [RuntimeError]. *)
Fixpoint sentence_loop (text_is_ssml : bool) (parsed_text : list Word)
    (st : cursor) (sent_iter : list (str * str)) {struct sent_iter} : outcome :=
  match sent_iter with
  | [] => ([], inr st)
  | (original, normalized) :: sent_iter' =>
      let spoken_ssml :=
        text_is_ssml && is_spoken (mkWord original [] [] 0 0) in
      let '(n_chars_whitespace, n_bytes_whitespace) :=
        consume_whitespace (text_view st) text_is_ssml in
      let n_bytes := n_bytes_consumed st + n_bytes_whitespace in
      match (if spoken_ssml
             then markup_lookup parsed_text (p_idx st) original
             else inr (false, original, [])) with
      | inl e => ([], inl e)
      | inr (phoneme_multi, original, phones) =>
          let token_byte_len := utf8_byte_length original in
          let word :=
            mkWord original normalized phones
                   n_bytes (n_bytes + token_byte_len) in
          let st' :=
            {| n_bytes_consumed := n_bytes + token_byte_len;
               text_view :=
                 drop (n_chars_whitespace + length original) (text_view st);
               p_idx := if spoken_ssml then p_idx st + 1 else p_idx st |} in
          if spoken_ssml && phoneme_multi then
            let skip_length := length (split original) in
            match skip_length, sent_iter' with
            | S _, _ :: sent_iter'' =>
                yield_then word
                  (sentence_loop text_is_ssml parsed_text st' sent_iter'')
            | _, _ => ([word], inl RuntimeError)
            end
          else
            yield_then word
              (sentence_loop text_is_ssml parsed_text st' sent_iter')
      end
  end.

(** The outer loop, [for sent in sentences_with_pairs]. *)
Fixpoint sentences_loop (text_is_ssml : bool) (parsed_text : list Word)
    (st : cursor) (sentences_with_pairs : list (list (str * str))) : outcome :=
  match sentences_with_pairs with
  | [] => ([], inr st)
  | sent :: sentences' =>
      match sentence_loop text_is_ssml parsed_text st sent with
      | (ws, inl e) => (ws, inl e)
      | (ws, inr st') =>
          let k := sentences_loop text_is_ssml parsed_text st' sentences' in
          (ws ++ WORD_SENTENCE_SEPARATOR :: fst k, snd k)
      end
  end.

(** The SSML parser and the remote service. *)
Variable parse_ssml : str -> PyError + (str * list Word).
Variable NormalizeTokenwise : str -> PyError + list (list (str * str)).

Definition normalize (text : str) (text_is_ssml : bool) : outcome :=
  match (if text_is_ssml
         then parse_ssml text
         else inr (text, [])) with
  | inl e => ([], inl e)
  | inr (plain, parsed_text) =>
      match NormalizeTokenwise plain with
      | inl e => ([], inl e)
      | inr sentences_with_pairs =>
          sentences_loop text_is_ssml parsed_text
            {| n_bytes_consumed := 0; text_view := text; p_idx := 0 |}
            sentences_with_pairs
      end
  end.

End Normalize.
End GrammatekNormalizer.

End Normalization.

(** ** Grapheme-to-phoneme translators ([grapheme_to_phoneme.py]) *)

Module G2P.

Abbreviation PhoneSeq := (list str).
Abbreviation LangID := str.

(** [Alphabet]: the literals ["ipa"], ["x-sampa"] and
    ["x-sampa+syll+stress"]. *)
Inductive Alphabet := ipa | x_sampa | x_sampa_syll_stress.

#[export] Instance Alphabet_eq_dec : EqDecision Alphabet.
Proof. solve_decision. Defined.

(** *** The punctuation pattern *)

(** [string.punctuation]: the ASCII punctuation characters, in code
    point order. *)
Definition string_punctuation : str :=
  map N.of_nat (seq 33 15 ++ seq 58 7 ++ seq 91 6 ++ seq 123 4).

(** [re.sub(r"[{}\[\]]", "", string.punctuation)] *)
Definition punctuation : str :=
  filter (fun c => c ∉ [123; 125; 91; 93]%N) string_punctuation.

(** Membership in the character set [[body]] of a regular expression:
    a backslash makes the next character literal, [a-b] is a range,
    any other character stands for itself. *)
Fixpoint in_char_set (body : str) (c : N) : bool :=
  match body with
  | [] => false
  | a :: rest =>
      if (a =? 92)%N then
        match rest with
        | x :: rest' => (c =? x)%N || in_char_set rest' c
        | [] => false
        end
      else
        match rest with
        | dash :: b :: rest' =>
            if (dash =? 45)%N
            then (a <=? c)%N && (c <=? b)%N || in_char_set rest' c
            else (c =? a)%N || in_char_set rest c
        | _ => (c =? a)%N || in_char_set rest c
        end
  end.

(** The set matched by [r"([{}])".format(punctuation)]. *)
Definition is_punctuation (c : N) : bool := in_char_set punctuation c.

(** [re.sub(pattern, r" \1 ", s)]: a space on each side of every
    punctuation character. *)
Definition space_punctuation (s : str) : str :=
  flat_map (fun c => if is_punctuation c then [32; c; 32]%N else [c]) s.

(** [re.sub(pattern, "", s)] *)
Definition remove_punctuation (s : str) : str :=
  filter (fun c => is_punctuation c = false) s.

(** *** [GraphemeToPhonemeTranslatorBase.translate_words] *)

(** Word objects are mutated in place and yielded again, so the Words
    live in a heap and the streams hold references. *)
Abbreviation heap := (gmap nat Word).

Module GraphemeToPhonemeTranslatorBase.
Section TranslateWords.
(** The abstract method [translate] of the translator at hand. *)
Variable translate : str -> LangID -> Alphabet -> PhoneSeq.
(** [Word.is_spoken] ([src/frontend/words.py]) is not among the
    sources. *)
Variable is_spoken : Word -> bool.

Definition ssml_tag_skiplist : list str := [lit "phoneme"].

(** [word.ssml_props.tag_type not in ssml_tag_skiplist], which the
    code evaluates only after [word.is_from_ssml()]. *)
Definition tag_not_skipped (word : Word) : bool :=
  match ssml_props word with
  | Some props => bool_decide (tag_type props ∉ ssml_tag_skiplist)
  | None => false
  end.

Definition should_translate (word : Word) : bool :=
  (negb (is_from_ssml word)
   && bool_decide (word <> WORD_SENTENCE_SEPARATOR))
  || (is_from_ssml word
      && tag_not_skipped word
      && bool_decide (word <> WORD_SENTENCE_SEPARATOR)).

(** The phone sequence lines 86-92 build for a Word. *)
Definition g2p_phones (word : Word) (lang : LangID) (alphabet : Alphabet)
    : PhoneSeq :=
  let g2p_word := space_punctuation (symbol word) in
  concat (map (fun g2p_w => translate g2p_w lang alphabet) (split g2p_word)).

(** One iteration of the loop, for the Word at reference [r]: the
    heap after it, and the references yielded. A reference of the
    input stream is always allocated. *)
Definition translate_words_step (lang : LangID) (alphabet : Alphabet)
    (h : heap) (r : nat) : heap * list nat :=
  match h !! r with
  | None => (h, [])
  | Some word =>
      let word' :=
        if should_translate word
        then set_phone_sequence word (g2p_phones word lang alphabet)
        else word in
      let h' := if should_translate word then <[r := word']> h else h in
      if is_spoken word' && bool_decide (alphabet = x_sampa_syll_stress)
      then
        let marker := fresh (dom h') in
        (<[marker := mkWord [] [] [lit "."] 0 0]> h', [r; marker])
      else (h', [r])
  end.

Fixpoint translate_words (h : heap) (words : list nat) (lang : LangID)
    (alphabet : Alphabet) : heap * list nat :=
  match words with
  | [] => (h, [])
  | r :: words' =>
      let '(h', out) := translate_words_step lang alphabet h r in
      let '(h'', out') := translate_words h' words' lang alphabet in
      (h'', out ++ out')
  end.

End TranslateWords.
End GraphemeToPhonemeTranslatorBase.

(** *** [ComposedTranslator] *)

(** The capability the chain holds its members by. *)
Record Translator := {
  translate : str -> LangID -> Alphabet -> PhoneSeq
}.

Module ComposedTranslator.

Record t := { _translators : list Translator }.

Definition __init__ (translators : list Translator) : PyError + t :=
  if length translators <? 1
  then inl ValueError
  else inr {| _translators := translators |}.

(** The loop of [translate], from a value of [phone]. *)
Fixpoint translate_loop (phone : PhoneSeq) (translators : list Translator)
    (text : str) (lang : LangID) (alphabet : Alphabet) : PhoneSeq :=
  match translators with
  | [] => phone
  | t :: translators' =>
      let phone := G2P.translate t text lang alphabet in
      if truthy phone
      then phone
      else translate_loop phone translators' text lang alphabet
  end.

Definition translate (self : t) (text : str) (lang : LangID)
    (alphabet : Alphabet) : PhoneSeq :=
  translate_loop [] (_translators self) text lang alphabet.

End ComposedTranslator.

(** *** [LexiconGraphemeToPhonemeTranslator] *)

Module LexiconGraphemeToPhonemeTranslator.

(** Modelled from the spec: the lexicon of [src/frontend/lexicon.py],
    which is not among the sources: a mapping from word form to phone
    sequence, with the truth value Python gives the lexicon object. *)
Record Lexicon := {
  lexicon_bool : bool;
  lexicon_table : gmap str PhoneSeq
}.

(** [lexicon.get(grapheme, default)] *)
Definition get (lexicon : Lexicon) (grapheme : str) (default : PhoneSeq)
    : PhoneSeq :=
  match lexicon_table lexicon !! grapheme with
  | Some phones => phones
  | None => default
  end.

Section Translate.
(** [str.lower], and the alphabet converters of
    [src/frontend/phonemes.py], which is not among the sources. *)
Variable lower : str -> str.
Variable convert_ipa_to_xsampa : PhoneSeq -> PhoneSeq.
Variable convert_xsampa_to_xsampa_with_stress : PhoneSeq -> str -> PhoneSeq.

Definition _translate (_lookup_lexicon : Lexicon) (w : str) (lang : LangID)
    (alphabet : Alphabet) : PhoneSeq :=
  let phones : PhoneSeq := [] in
  let w_lower := lower w in
  let lexicon := _lookup_lexicon in
  let phones :=
    if lexicon_bool lexicon then
      let phones := get lexicon w [] in
      if negb (truthy phones) then get lexicon w_lower [] else phones
    else phones in
  if bool_decide (alphabet <> ipa) then
    let phones := convert_ipa_to_xsampa phones in
    if bool_decide (alphabet = x_sampa_syll_stress)
    then convert_xsampa_to_xsampa_with_stress phones w
    else phones
  else phones.

End Translate.
End LexiconGraphemeToPhonemeTranslator.

(** *** [IceG2PTranslator] *)

Module IceG2PTranslator.

(** The part of the external transcriber's state the code writes. *)
Record Transcriber := { syllab_symbol : str }.

(** [__init__]: [Transcriber(use_dict=True, syllab_symbol=".",
    stress_label=True)] *)
Definition __init__ : Transcriber := {| syllab_symbol := lit "." |}.

Section Translate.
Variable lower : str -> str.
(** The external engine: [transcribe] reads the transcriber's
    settings and returns the phones as text, or raises.
    [convert_xsampa_to_ipa] is from [src/frontend/phonemes.py]. *)
Variable transcribe : Transcriber -> str -> PyError + str.
Variable convert_xsampa_to_ipa : PhoneSeq -> PhoneSeq.

Definition phones_of (alphabet : Alphabet) (out : str) : PhoneSeq :=
  let phone_seq := split out in
  if bool_decide (alphabet = ipa)
  then convert_xsampa_to_ipa phone_seq
  else phone_seq.

(** [_translate]: the transcriber as the call leaves it, and the
    phones returned or the exception raised. *)
Definition _translate (_transcriber : Transcriber) (text : str)
    (lang : LangID) (alphabet : Alphabet)
    : Transcriber * (PyError + PhoneSeq) :=
  let text := remove_punctuation text in
  if bool_decide (strip text = []) then (_transcriber, inr [])
  else if bool_decide (alphabet <> x_sampa_syll_stress) then
    let syllab_symbol := syllab_symbol _transcriber in
    let _transcriber := {| IceG2PTranslator.syllab_symbol := [] |} in
    match transcribe _transcriber (lower text) with
    | inl e => (_transcriber, inl e)
    | inr out =>
        ({| IceG2PTranslator.syllab_symbol := syllab_symbol |},
         inr (phones_of alphabet out))
    end
  else
    match transcribe _transcriber (lower text) with
    | inl e => (_transcriber, inl e)
    | inr out => (_transcriber, inr (phones_of alphabet out))
    end.

End Translate.
End IceG2PTranslator.

End G2P.

(** ** Embedded phoneme spans ([grapheme_to_phoneme.py]) *)

Module EmbeddedPhonemeTranslatorBase.
Import G2P.

(** [s.split(sep)] for a one-character [sep]: the stretches between
    the occurrences of the separator, empty ones included. *)
Fixpoint split_on (sep : N) (s : str) : list str :=
  match s with
  | [] => [[]]
  | c :: s' =>
      if (c =? sep)%N then [] :: split_on sep s'
      else match split_on sep s' with
           | piece :: pieces => (c :: piece) :: pieces
           | [] => [[c]]
           end
  end.

(** [s.replace(old, new)] for a one-character [old]. *)
Definition replace (old : N) (new : str) (s : str) : str :=
  flat_map (fun c => if (c =? old)%N then new else [c]) s.

(** [l[0]] *)
Definition first (l : PhoneSeq) : PyError + str :=
  match l with
  | x :: _ => inr x
  | [] => inl IndexError
  end.

Section ProcessEmbedded.
(** [SHORT_PAUSE], [Aligner().align] and the alphabet converters are
    from [src/frontend/phonemes.py], which is not among the sources. *)
Variable SHORT_PAUSE : str.
Variable align : str -> str.
Variable convert_ipa_to_xsampa : PhoneSeq -> PhoneSeq.
Variable convert_xsampa_to_xsampa_with_stress : PhoneSeq -> str -> PhoneSeq.

(** Lines 134-139, and again 156-161: one phone of a span that runs
    over several pieces, in the target alphabet. *)
Definition convert_phone (alphabet : Alphabet) (phone : str) : PyError + str :=
  if bool_decide (alphabet <> ipa) then
    match first (convert_ipa_to_xsampa [phone]) with
    | inl e => inl e
    | inr phone =>
        if bool_decide (alphabet = x_sampa_syll_stress)
        then first (convert_xsampa_to_xsampa_with_stress
                      (convert_ipa_to_xsampa [phone]) [])
        else inr phone
    end
  else inr phone.

(** Lines 147-152: the phones of a span held by one piece. *)
Definition convert_seq (alphabet : Alphabet) (cur_phone_seq : PhoneSeq)
    : PhoneSeq :=
  if bool_decide (alphabet <> ipa) then
    let cur_phone_seq := convert_ipa_to_xsampa cur_phone_seq in
    if bool_decide (alphabet = x_sampa_syll_stress)
    then convert_xsampa_to_xsampa_with_stress cur_phone_seq []
    else cur_phone_seq
  else cur_phone_seq.

(** The loop of [_process_embedded] over the pieces left, from the
    values of [phone_seq] and [phoneme_str_open]. *)
Fixpoint process_loop (translate_fn : str -> PhoneSeq) (alphabet : Alphabet)
    (phone_seq : PhoneSeq) (phoneme_str_open : bool) (pieces : list str)
    : PyError + PhoneSeq :=
  match pieces with
  | [] => inr phone_seq
  | w :: pieces' =>
      if phoneme_str_open then
        let closes := endswith w close_brace in
        let phone := if closes then replace close_brace [] w else w in
        match convert_phone alphabet phone with
        | inl e => inl e
        | inr phone =>
            process_loop translate_fn alphabet (phone_seq ++ [phone])
              (negb closes) pieces'
        end
      else if startswith w open_brace && endswith w close_brace then
        let cur_phone_seq :=
          split_on 32
            (align (replace close_brace [] (replace open_brace [] w))) in
        process_loop translate_fn alphabet
          (phone_seq ++ convert_seq alphabet cur_phone_seq) false pieces'
      else if startswith w open_brace then
        match convert_phone alphabet (replace open_brace [] w) with
        | inl e => inl e
        | inr phone =>
            process_loop translate_fn alphabet (phone_seq ++ [phone])
              true pieces'
        end
      else if bool_decide (w ∈ [lit "."; lit ","]) then
        process_loop translate_fn alphabet
          (phone_seq
           ++ [if bool_decide (alphabet = x_sampa_syll_stress)
               then lit "." else SHORT_PAUSE])
          false pieces'
      else
        process_loop translate_fn alphabet (phone_seq ++ translate_fn w)
          false pieces'
  end.

Definition _process_embedded (text : str) (translate_fn : str -> PhoneSeq)
    (alphabet : Alphabet) : PyError + PhoneSeq :=
  process_loop translate_fn alphabet [] false (split_on 32 text).

(** [translate], for the [_translate] of the translator at hand. *)
Definition translate (_translate : str -> LangID -> Alphabet -> PhoneSeq)
    (text : str) (lang : LangID) (alphabet : Alphabet) : PyError + PhoneSeq :=
  let text := replace 44 (lit " ,") text in
  let text := replace 46 (lit " .") text in
  let translate_fn := fun w => _translate w lang alphabet in
  _process_embedded text translate_fn alphabet.

End ProcessEmbedded.
End EmbeddedPhonemeTranslatorBase.

(** ** Voices ([voices/voice_base.py], [voices/espnet2.py]) *)

Module Voices.

Inductive VoiceError :=
| VoiceValueError
| VoiceKeyError
| VoiceNotImplementedError.

(** Keyword arguments: a [dict] from names to strings. *)
Abbreviation kwargs_t := (gmap str str).

(** [kwargs.get(key, default)] *)
Definition kwargs_get (kwargs : kwargs_t) (key : str) (default : str) : str :=
  match kwargs !! key with
  | Some v => v
  | None => default
  end.

Module OutputFormat.

Record t := {
  output_format : str;
  supported_sample_rates : list str
}.

(** [__eq__] against a tuple [(output_format, sample_rate)]. *)
Definition eq_tuple (self : t) (other : str * str) : bool :=
  bool_decide (output_format self = fst other)
  && bool_decide (snd other ∈ supported_sample_rates self).

(** [__eq__] against another [OutputFormat]. *)
Definition eq_format (self other : t) : bool :=
  bool_decide (output_format other = output_format self).

(** [content_type]; the property returns [None] when no branch is
    taken. *)
Definition content_type (self : t) : option str :=
  if bool_decide (output_format self = lit "mp3")
  then Some (lit "audio/mpeg")
  else if bool_decide (output_format self = lit "ogg_vorbis")
  then Some (lit "audio/ogg")
  else if bool_decide (output_format self = lit "pcm")
  then Some (lit "audio/x-wav")
  else None.

End OutputFormat.

Definition _OGG_VORBIS_SAMPLE_RATES : list str :=
  [lit "8000"; lit "16000"; lit "22050"; lit "24000"].
Definition _MP3_SAMPLE_RATES : list str :=
  [lit "8000"; lit "16000"; lit "22050"; lit "24000"].
Definition _PCM_SAMPLE_RATES : list str :=
  [lit "8000"; lit "16000"; lit "22050"].

Definition SUPPORTED_OUTPUT_FORMATS : list OutputFormat.t :=
  [ {| OutputFormat.output_format := lit "pcm";
       OutputFormat.supported_sample_rates := _PCM_SAMPLE_RATES |};
    {| OutputFormat.output_format := lit "ogg_vorbis";
       OutputFormat.supported_sample_rates := _OGG_VORBIS_SAMPLE_RATES |};
    {| OutputFormat.output_format := lit "mp3";
       OutputFormat.supported_sample_rates := _MP3_SAMPLE_RATES |};
    {| OutputFormat.output_format := lit "json";
       OutputFormat.supported_sample_rates := [] |} ].

(** The comparison of the tuple with each format goes to
    [OutputFormat.__eq__], the tuple's own [__eq__] declining. *)
Definition _is_output_format_supported (output_format sample_rate : str)
    : bool :=
  existsb (fun fmt => OutputFormat.eq_tuple fmt (output_format, sample_rate))
          SUPPORTED_OUTPUT_FORMATS.

Module Espnet2Synthesizer.
Section Synthesize.
(** [synthesize] is a generator: the model gives what running it
    does first, the test of the output format, and leaves what
    follows (normalization, phonetization, inference and encoding,
    all external here) to [pipeline]. *)
Variable A : Type.
Variable pipeline : str -> bool -> Z -> str -> bool -> A.

Definition synthesize (text : str) (ssml : bool) (sample_rate : Z)
    (output_format : str) (use_ffmpeg : bool) : VoiceError + A :=
  if bool_decide (output_format = lit "json")
  then inl VoiceNotImplementedError
  else inr (pipeline text ssml sample_rate output_format use_ffmpeg).
End Synthesize.
End Espnet2Synthesizer.

Module Espnet2Voice.

(** [_is_valid]; a [KeyError] from [kwargs["VoiceId"]] is caught. *)
Definition _is_valid (voice_id : str) (kwargs : kwargs_t) : bool :=
  if _is_output_format_supported
       (kwargs_get kwargs (lit "OutputFormat") [])
       (kwargs_get kwargs (lit "SampleRate") [])
  then match kwargs !! lit "VoiceId" with
       | Some v => bool_decide (v = voice_id)
       | None => false
       end
  else false.

Section Synthesize.
Variable A : Type.
Variable pipeline : str -> bool -> Z -> str -> bool -> A.
(** [int(s)], [None] when it raises [ValueError]; and
    [current_app.config["USE_FFMPEG"]]. *)
Variable int : str -> option Z.
Variable USE_FFMPEG : bool.

Definition _synthesize (voice_id : str) (text : str) (ssml : bool)
    (kwargs : kwargs_t) : VoiceError + A :=
  if negb (_is_valid voice_id kwargs) then inl VoiceValueError
  else
    match kwargs !! lit "SampleRate" with
    | None => inl VoiceKeyError
    | Some rate =>
        match int rate with
        | None => inl VoiceValueError
        | Some sample_rate =>
            match kwargs !! lit "OutputFormat" with
            | None => inl VoiceKeyError
            | Some output_format =>
                Espnet2Synthesizer.synthesize A pipeline text ssml
                  sample_rate output_format USE_FFMPEG
            end
        end
    end.

Definition synthesize (voice_id : str) (text : str) (ssml : bool)
    (kwargs : kwargs_t) : VoiceError + A :=
  _synthesize voice_id text ssml kwargs.

End Synthesize.
End Espnet2Voice.

End Voices.

(** ** The speech route ([app.py]) *)

Module App.
Import Voices.

Inductive AppError :=
| KeyError
| UpstreamError.

(** What the route returns: a [Response], or the error body with the
    status 400 and its message if it has one. *)
Inductive Reply :=
| Response (content : list N) (content_type : str)
| BadRequest (message : option str).

Section Route.
(** [g_polly.synthesize_speech] on the keyword arguments: it raises, or answers
    without an [AudioStream], or with a stream whose reading raises or
    gives the content. [g_fastspeech.synthesize(text, content)] raises
    or fills the buffer. *)
Variable polly_synthesize_speech :
  kwargs_t -> AppError + option (AppError + list N).
Variable fastspeech_synthesize : str -> AppError + list N.

Definition output_content_type (output_format : str) : str :=
  if bool_decide (output_format = lit "mp3") then lit "audio/mpeg"
  else if bool_decide (output_format = lit "ogg_vorbis") then lit "audio/ogg"
  else if bool_decide (output_format = lit "pcm") then lit "audio/x-wav"
  else lit "application/x-json-stream".

Definition route_synthesize_speech (kwargs : kwargs_t) : AppError + Reply :=
  match kwargs !! lit "OutputFormat" with
  | None => inl KeyError
  | Some output_format =>
      let content_type := output_content_type output_format in
      match kwargs !! lit "VoiceId" with
      | None => inl KeyError
      | Some voice_id =>
          if bool_decide (voice_id ∈ [lit "Dora"; lit "Karl"; lit "Joanna"])
          then
            match polly_synthesize_speech kwargs with
            | inl e => inl e
            | inr (Some (inr content)) => inr (Response content content_type)
            | inr (Some (inl _)) => inr (BadRequest None)
            | inr None => inr (BadRequest None)
            end
          else if bool_decide (output_format <> lit "pcm")
          then inr (BadRequest (Some (lit "Unsupported arguments")))
          else
            match kwargs !! lit "TextType" with
            | None => inl KeyError
            | Some text_type =>
                if bool_decide (text_type <> lit "text")
                then inr (BadRequest (Some (lit "Unsupported arguments")))
                else
                  match kwargs !! lit "Text" with
                  | None => inl KeyError
                  | Some text =>
                      match fastspeech_synthesize text with
                      | inl e => inl e
                      | inr content => inr (Response content content_type)
                      end
                  end
            end
      end
  end.

End Route.
End App.

(** ** Properties and inputs the results below are stated on *)

Module Props.
Import Normalization G2P.

(** The bytes of the input buffer a Word's offsets delimit. *)
Definition span_bytes (text : str) (w : Word) : list N :=
  slice (start_byte_offset w) (end_byte_offset w) (encode text).

(** The offsets of a Word stream never go back: from [lo] on, each
    Word starts at or after the end of the one before, and ends at or
    after its start. *)
Fixpoint offsets_from (lo : nat) (ws : list Word) : Prop :=
  match ws with
  | [] => True
  | w :: ws' =>
      lo <= start_byte_offset w
      /\ start_byte_offset w <= end_byte_offset w
      /\ offsets_from (end_byte_offset w) ws'
  end.

Definition offsets_monotone (ws : list Word) : Prop := offsets_from 0 ws.

(** The text a token stream was read from. *)
Definition originals (tokens : list Tok) : str :=
  concat (map (fun tok => default [] (original tok)) tokens).

(** A token [add_token_offsets] gives offsets to, a sentence end
    apart: it has an original span. *)
Definition has_span (tok : Tok) : bool :=
  negb (falsy (origin_spans tok) || falsy (original tok)).

(** The scanner state [_tokenize] is in after the tokens [toks], from
    the state [(current_word_segments, phoneme_str_open)]: the loop
    variables of [tokenize_loop]. *)
Fixpoint scanner_after (current_word_segments : list str)
    (phoneme_str_open : bool) (toks : list (Tok * nat * nat))
    : list str * bool :=
  match toks with
  | [] => (current_word_segments, phoneme_str_open)
  | (tok, _, _) :: toks' =>
      if decide (kind tok = S_END)
      then scanner_after current_word_segments phoneme_str_open toks'
      else
        let w := strip (default [] (original tok)) in
        if phoneme_str_open then
          if endswith w close_brace
          then scanner_after [] false toks'
          else scanner_after (current_word_segments ++ [w]) true toks'
        else
          if startswith w open_brace && negb (endswith w close_brace)
          then scanner_after (current_word_segments ++ [w]) true toks'
          else scanner_after current_word_segments false toks'
  end.

(** [n_bytes_consumed] after the tokens. *)
Fixpoint bytes_after (n_bytes_consumed : nat) (tokens : list Tok) : nat :=
  match tokens with
  | [] => n_bytes_consumed
  | tok :: tokens' =>
      if decide (kind tok = S_END) then bytes_after n_bytes_consumed tokens'
      else if falsy (origin_spans tok) || falsy (original tok)
      then bytes_after n_bytes_consumed tokens'
      else bytes_after
             (n_bytes_consumed + utf8_byte_length (default [] (original tok)))
             tokens'
  end.

Definition tok (k : TOK) (o : string) (spans : list nat) : Tok :=
  {| kind := k; original := Some (lit o); origin_spans := Some spans |}.

Definition marker (k : TOK) : Tok :=
  {| kind := k; original := None; origin_spans := None |}.

(** The text [{a b}] as the tokenizer splits it, braces apart, and
    with the braces left on the words. *)
Definition brace_tokens_fine : list Tok :=
  [marker S_BEGIN; tok UNKNOWN "{" [0]; tok WORD "a" [0];
   tok WORD " b" [1]; tok UNKNOWN "}" [0]; marker S_END].

Definition brace_tokens_coarse : list Tok :=
  [marker S_BEGIN; tok UNKNOWN "{a" [0; 1]; tok UNKNOWN " b}" [1; 2];
   marker S_END].


(** A tokenizer that answers the given tokens. *)
Definition tokenizer_of (tokens : list Tok) (_ : str) : list Tok := tokens.

(** What the tokenizer promises of its tokens for a text: their
    originals, put end to end, are the text; a token without a span,
    and a sentence end, has no text of its own; and the span of a
    token is its original without the whitespace around it. *)
Definition carries_no_text (t : Tok) : Prop :=
  has_span t = false \/ kind t = S_END -> default [] (original t) = [].

Definition span_is_stripped (t : Tok) : Prop :=
  has_span t = true ->
  slice (hd 0 (default [] (origin_spans t)))
        (List.last (default [] (origin_spans t)) 0 + 1)
        (default [] (original t))
  = strip (default [] (original t)).

Definition tokens_of_text (text : str) (tokens : list Tok) : Prop :=
  originals tokens = text
  /\ Forall carries_no_text tokens
  /\ Forall span_is_stripped tokens.

(** A token that does not open a brace span. *)
Definition opens_no_brace (t : Tok) : Prop :=
  startswith (strip (default [] (original t))) open_brace = false.




(** A token that reaches the scanner does not end with a closing
    brace. *)
Definition leaves_brace_open (t : Tok) : Prop :=
  kind t <> S_END -> has_span t = true ->
  endswith (strip (default [] (original t))) close_brace = false.

(** [Hi {a b] with no closing brace. *)
Definition unterminated_pre : list Tok :=
  [marker S_BEGIN; tok WORD "Hi" [0; 1]].
Definition unterminated_open : Tok := tok UNKNOWN " {a" [1; 2].
Definition unterminated_post : list Tok := [tok WORD " b" [1]; marker S_END].

(** *** The translator chain *)


(** Two Words agree on every field but [phone_sequence]. *)
Definition same_frame (w w' : Word) : Prop :=
  original_symbol w' = original_symbol w
  /\ symbol w' = symbol w
  /\ start_byte_offset w' = start_byte_offset w
  /\ end_byte_offset w' = end_byte_offset w
  /\ ssml_props w' = ssml_props w.

(** A heap with a plain Word, the sentinel and a Word of a phoneme
    tag, a translator that answers the word itself as one phone, and
    a reading of [is_spoken] under which a Word with a symbol is
    spoken. *)
Definition example_heap : heap :=
  {[ 0 := mkWord (lit "Hi") (lit "Hi") [] 0 2;
     1 := WORD_SENTENCE_SEPARATOR;
     2 := {| original_symbol := lit "a b"; symbol := lit "a b";
             phone_sequence := [lit "x"; lit "y"];
             start_byte_offset := 3; end_byte_offset := 6;
             ssml_props :=
               Some {| tag_type := lit "phoneme"; multi := true;
                       rate := []; pitch := []; volume := [] |} |} ]}.

Definition echo_translate (text : str) (_ : LangID) (_ : Alphabet) : PhoneSeq :=
  [text].

Definition has_symbol (w : Word) : bool := truthy (symbol w).

(** The first non-empty phone sequence of a list, or the empty one. *)
Definition first_non_empty (results : list PhoneSeq) : PhoneSeq :=
  default [] (head (filter (fun phone => phone <> []) results)).

(** A lexicon object Python takes for false holds no entry. *)
Definition lexicon_consistent
    (lexicon : LexiconGraphemeToPhonemeTranslator.Lexicon) : Prop :=
  LexiconGraphemeToPhonemeTranslator.lexicon_bool lexicon = false ->
  LexiconGraphemeToPhonemeTranslator.lexicon_table lexicon = ∅.

(** [str.lower] on the ASCII letters. *)
Definition ascii_lower (s : str) : str :=
  map (fun c => if (65 <=? c)%N && (c <=? 90)%N then (c + 32)%N else c) s.

(** A lexicon with the one entry [word]. *)
Definition word_lexicon : LexiconGraphemeToPhonemeTranslator.Lexicon :=
  {| LexiconGraphemeToPhonemeTranslator.lexicon_bool := true;
     LexiconGraphemeToPhonemeTranslator.lexicon_table :=
       {[ lit "word" := [lit "w"; lit "o"; lit "r"; lit "d"] ]} |}.

(** A transcriber whose call fails. *)
Definition failing_transcribe (_ : IceG2PTranslator.Transcriber) (_ : str)
    : PyError + str :=
  inl ExternalError.

(** Two translators of the chain: one that knows no word, one that
    answers two phones. *)
Definition T_empty : Translator := {| translate := fun _ _ _ => [] |}.
Definition T_two : Translator :=
  {| translate := fun _ _ _ => [lit "p1"; lit "p2"] |}.

(** *** The realigner on a phoneme tag of three words *)

Definition props_of (tag : string) (is_multi : bool) : SSMLProps :=
  {| tag_type := lit tag; multi := is_multi;
     rate := []; pitch := []; volume := [] |}.

(** The parsed markup of
    [<phoneme ...>a b c</phoneme> <prosody ...>d</prosody>]. *)
Definition three_piece_parsed : list Word :=
  [ {| original_symbol := lit "a b c"; symbol := lit "a b c";
       phone_sequence := [lit "x"; lit "y"; lit "z"];
       start_byte_offset := 0; end_byte_offset := 0;
       ssml_props := Some (props_of "phoneme" true) |};
    {| original_symbol := lit "d"; symbol := lit "d";
       phone_sequence := [lit "D"];
       start_byte_offset := 0; end_byte_offset := 0;
       ssml_props := Some (props_of "prosody" false) |} ].

(** The sentence the service returns for its text, [a b c d]. *)
Definition three_piece_sentence : list (str * str) :=
  [(lit "a", lit "a"); (lit "b", lit "b"); (lit "c", lit "c");
   (lit "d", lit "d")].

Definition start_cursor (text : str) : GrammatekNormalizer.cursor :=
  {| GrammatekNormalizer.n_bytes_consumed := 0;
     GrammatekNormalizer.text_view := text;
     GrammatekNormalizer.p_idx := 0 |}.

End Props.

(** ** Further properties and inputs *)

Module MoreProps.
Import Normalization G2P Props.

(** *** The tokenizer *)

(** The text of a token with its offsets, as [_tokenize] reads it. *)
Definition stripped (x : Tok * nat * nat) : str :=
  strip (default [] (original (fst (fst x)))).

(** The Word [_tokenize] yields for a token read outside braces. *)
Definition word_of_token (x : Tok * nat * nat) : Word :=
  mkWord (stripped x) (stripped x) [] (snd (fst x)) (snd x).

(** A token that reaches the scanner leaves it outside braces. *)
Definition stays_outside (t : Tok) : Prop :=
  kind t <> S_END -> has_span t = true ->
  startswith (strip (default [] (original t))) open_brace
  && negb (endswith (strip (default [] (original t))) close_brace) = false.

(** A token in a brace span that does not close it. *)
Definition keeps_span_open (x : Tok * nat * nat) : Prop :=
  kind (fst (fst x)) <> S_END -> endswith (stripped x) close_brace = false.

(** The tokens of [Hi you.] *)
Definition plain_tokens : list Tok :=
  [marker S_BEGIN; tok WORD "Hi" [0; 1]; tok WORD " you" [1; 2; 3];
   tok PUNCTUATION "." [0]; marker S_END].

(** *** The realigner *)


(** Leading blanks of a text, in characters and in bytes. *)
Definition leading_blanks (text : str) (_ : bool) : nat * nat :=
  let n := length text - length (lstrip text) in (n, n).


(** Whether the Word made of a token's original text is spoken. *)
Definition said (is_spoken : Word -> bool) (original : str) : bool :=
  is_spoken (mkWord original [] [] 0 0).

(** A Word of the parsed markup that is not a multi-word phoneme
    tag. *)
Definition one_word_tag (w : Word) : Prop :=
  exists props,
    ssml_props w = Some props
    /\ bool_decide (tag_type props = lit "phoneme") && is_multi props = false.

(** The parsed markup of [<prosody ...>Hi</prosody> <phoneme
    ...>you</phoneme>], and the service's answer for [Hi, you]. *)
Definition two_tags_parsed : list Word :=
  [ {| original_symbol := lit "Hi"; symbol := lit "Hi";
       phone_sequence := [];
       start_byte_offset := 0; end_byte_offset := 0;
       ssml_props := Some (props_of "prosody" false) |};
    {| original_symbol := lit "you"; symbol := lit "you";
       phone_sequence := [lit "j"; lit "u"];
       start_byte_offset := 0; end_byte_offset := 0;
       ssml_props := Some (props_of "phoneme" false) |} ].

Definition two_tags_sentence : list (str * str) :=
  [(lit "Hi", lit "hi"); (lit ",", lit ","); (lit "you", lit "you")].

(** A reading of [is_spoken]: the text is not a comma. *)
Definition not_comma (w : Word) : bool :=
  negb (bool_decide (original_symbol w = lit ",")).

(** *** Translators *)

(** A chain, as the translator it is. *)
Definition as_translator (chain : ComposedTranslator.t) : Translator :=
  {| translate := ComposedTranslator.translate chain |}.

Definition chain_of (translators : list Translator) : ComposedTranslator.t :=
  {| ComposedTranslator._translators := translators |}.

(** A character that is neither punctuation nor whitespace. *)
Definition is_letter (c : N) : Prop :=
  is_punctuation c = false /\ isspace c = false.

(** A Word with the given symbol. *)
Definition word_with_symbol (s : str) : Word := mkWord [] s [] 0 0.

(** An engine that answers the text it is given. *)
Definition echo_transcribe (_ : IceG2PTranslator.Transcriber) (text : str)
    : PyError + str :=
  inr text.

(** *** Embedded phoneme spans *)

(** A piece free of the characters that make the scanner act: space,
    comma, full stop and braces. *)
Definition plain_piece (w : str) : Prop :=
  Forall (fun c => c ∉ [32; 44; 46; 123; 125]%N) w.

(** [" ".join(pieces)] *)
Fixpoint join_space (pieces : list str) : str :=
  match pieces with
  | [] => []
  | [w] => w
  | w :: pieces' => w ++ 32%N :: join_space pieces'
  end.

(** The pieces of a brace span holding the phones [phones]: the first
    after an opening brace, the last before a closing one. *)
Definition span_pieces (p : str) (phones : list str) (q : str) : list str :=
  (open_brace :: p) :: phones ++ [q ++ [close_brace]].

(** *** Voices and the route *)

(** [int] on the decimal digits. *)
Definition int_of_digits (s : str) : option Z :=
  if forallb (fun c => (48 <=? c)%N && (c <=? 57)%N) s && negb (bool_decide (s = []))
  then Some (fold_left (fun acc c => (10 * acc + Z.of_N (c - 48))%Z) s 0%Z)
  else None.

Definition request (format rate voice : string) : gmap str str :=
  {[ lit "OutputFormat" := lit format; lit "SampleRate" := lit rate;
     lit "VoiceId" := lit voice; lit "TextType" := lit "text";
     lit "Text" := lit "Hi" ]}.

(** A pipeline that records what it is called with. *)
Definition recording_pipeline (text : str) (ssml : bool) (sample_rate : Z)
    (output_format : str) (use_ffmpeg : bool) : str * bool * Z * str * bool :=
  (text, ssml, sample_rate, output_format, use_ffmpeg).

End MoreProps.

(** ** The tokenizer *)

Module NormalizationFacts.
Import Normalization Props.

(** *** UTF-8 lengths *)


Lemma encode_app s t : encode (s ++ t) = encode s ++ encode t.
Proof. apply flat_map_app. Qed.

Lemma utf8_byte_length_app s t :
  utf8_byte_length (s ++ t) = utf8_byte_length s + utf8_byte_length t.
Proof.
  unfold utf8_byte_length, encode.
  now rewrite flat_map_app, length_app.
Qed.


Lemma utf8_byte_length_take k s :
  utf8_byte_length (take k s) <= utf8_byte_length s.
Proof.
  rewrite <- (take_drop k s) at 2. rewrite utf8_byte_length_app. lia.
Qed.

(** The two slices [add_token_offsets] measures lie within the token's
    original, whatever the span indices. *)
Lemma span_within a b s :
  utf8_byte_length (take a s) + utf8_byte_length (slice a b s)
  <= utf8_byte_length s.
Proof.
  unfold slice. destruct (decide (a <= b)) as [Hab|Hab].
  - rewrite <- utf8_byte_length_app.
    replace (take a s) with (take a (take b s))
      by (rewrite take_take; f_equal; lia).
    rewrite take_drop. apply utf8_byte_length_take.
  - rewrite drop_ge by (rewrite length_take; lia).
    unfold utf8_byte_length at 2. simpl.
    pose proof (utf8_byte_length_take a s). lia.
Qed.


(** *** Offsets are ordered *)

Lemma offsets_from_weaken lo lo' ws :
  lo' <= lo -> offsets_from lo ws -> offsets_from lo' ws.
Proof. destruct ws; simpl; [done|]. intros ? (? & ? & ?). repeat split; [lia|done..]. Qed.

Lemma tokenize_loop_offsets tokens : forall n segs open,
  offsets_from n (tokenize_loop segs open (add_token_offsets_from n tokens)).
Proof.
  induction tokens as [|t tokens IH]; intros n segs open; simpl; [done|].
  destruct (decide (kind t = S_END)) as [He|He]; simpl.
  { rewrite decide_True by done. apply IH. }
  destruct (falsy (origin_spans t) || falsy (original t)); [apply IH|].
  simpl. rewrite decide_False by done.
  set (orig := default [] (original t)).
  set (a := hd 0 (default [] (origin_spans t))).
  set (b := List.last (default [] (origin_spans t)) 0).
  pose proof (span_within a (b + 1) orig) as Hw.
  assert (Hrest : forall segs' open',
    offsets_from
      (n + utf8_byte_length (take a orig)
       + utf8_byte_length (slice a (b + 1) orig))
      (tokenize_loop segs' open'
         (add_token_offsets_from (n + utf8_byte_length orig) tokens))).
  { intros. eapply offsets_from_weaken; [|apply IH]. lia. }
  assert (Hskip : forall segs' open',
    offsets_from n
      (tokenize_loop segs' open'
         (add_token_offsets_from (n + utf8_byte_length orig) tokens))).
  { intros. eapply offsets_from_weaken; [|apply IH]. lia. }
  destruct open.
  - destruct (endswith _ _); [|apply Hskip].
    simpl. repeat split; [lia|lia|apply Hrest].
  - destruct (startswith _ _ && negb (endswith _ _)); [apply Hskip|].
    simpl. repeat split; [lia|lia|apply Hrest].
Qed.

(** X1. For every token stream the byte offsets of the Words of
    [_tokenize] are monotonically non-decreasing. *)
Lemma tokenize_offsets_monotone tokenize_without_annotation text :
  offsets_monotone (_tokenize tokenize_without_annotation text).
Proof. apply tokenize_loop_offsets. Qed.

(** *** Sentence ends and the scanner *)



Lemma add_token_offsets_app pre post : forall n,
  add_token_offsets_from n (pre ++ post)
  = add_token_offsets_from n pre
    ++ add_token_offsets_from (bytes_after n pre) post.
Proof.
  induction pre as [|t pre IH]; intros n; simpl; [done|].
  destruct (decide (kind t = S_END)); simpl; [by rewrite IH|].
  destruct (falsy _ || falsy _); simpl; by rewrite IH.
Qed.

Lemma tokenize_loop_app l1 l2 : forall segs open,
  tokenize_loop segs open (l1 ++ l2)
  = tokenize_loop segs open l1
    ++ tokenize_loop (fst (scanner_after segs open l1))
         (snd (scanner_after segs open l1)) l2.
Proof.
  induction l1 as [|[[t s] e] l1 IH]; intros segs open; simpl; [done|].
  destruct (decide (kind t = S_END)); [apply IH|].
  destruct open.
  - destruct (endswith _ _); simpl; by rewrite IH.
  - destruct (startswith _ _ && negb (endswith _ _)); simpl; by rewrite IH.
Qed.

(** Inside braces, tokens that do not end with a closing brace yield
    nothing. *)
Lemma tokenize_loop_open_silent tokens : forall n segs,
  Forall leaves_brace_open tokens ->
  tokenize_loop segs true (add_token_offsets_from n tokens) = [].
Proof.
  induction tokens as [|t tokens IH]; intros n segs Hall; simpl; [done|].
  apply Forall_cons in Hall as [Ht Hall].
  destruct (decide (kind t = S_END)) as [He|He]; simpl.
  { rewrite decide_True by done. by apply IH. }
  destruct (falsy (origin_spans t) || falsy (original t)) eqn:Hf;
    [by apply IH|].
  simpl. rewrite decide_False by done.
  rewrite Ht; [by apply IH|done|].
  unfold has_span. by rewrite Hf.
Qed.


(** *** Spans of Words read from one token *)

Lemma slice_middle {A} (p y z : list A) :
  slice (length p) (length p + length y) (p ++ y ++ z) = y.
Proof.
  unfold slice. induction p as [|x p IH]; simpl; [|done].
  rewrite take_app_length. done.
Qed.

Lemma original_split a b (s : str) :
  exists z, s = take a s ++ slice a b s ++ z.
Proof.
  unfold slice. destruct (decide (a <= b)) as [Hab|Hab].
  - exists (drop b s). rewrite app_assoc.
    replace (take a s) with (take a (take b s))
      by (rewrite take_take; f_equal; lia).
    by rewrite !take_drop.
  - exists (drop a s). rewrite drop_ge by (rewrite length_take; lia).
    simpl. by rewrite take_drop.
Qed.

(** The offsets [add_token_offsets] gives a token delimit, in the
    bytes of the text, the bytes of the token's span. *)
Lemma span_bytes_token (prefix orig rest : str) a b w :
  start_byte_offset w
  = utf8_byte_length prefix + utf8_byte_length (take a orig) ->
  end_byte_offset w
  = start_byte_offset w + utf8_byte_length (slice a b orig) ->
  span_bytes (prefix ++ orig ++ rest) w = encode (slice a b orig).
Proof.
  intros Hs He. unfold span_bytes. rewrite He, Hs.
  destruct (original_split a b orig) as [z Hz].
  remember (take a orig) as x. remember (slice a b orig) as y.
  rewrite Hz. unfold utf8_byte_length. rewrite !encode_app.
  rewrite <- length_app.
  replace (encode prefix ++ (encode x ++ encode y ++ encode z) ++ encode rest)
    with ((encode prefix ++ encode x) ++ encode y ++ (encode z ++ encode rest))
    by (by rewrite <- !app_assoc).
  apply slice_middle.
Qed.

Lemma tokenize_loop_plain_spans tokens : forall prefix text,
  text = prefix ++ originals tokens ->
  Forall carries_no_text tokens ->
  Forall span_is_stripped tokens ->
  Forall opens_no_brace tokens ->
  Forall (fun w => span_bytes text w = encode (original_symbol w))
    (tokenize_loop [] false
       (add_token_offsets_from (utf8_byte_length prefix) tokens)).
Proof.
  induction tokens as [|t tokens IH]; intros prefix text -> Hno Hsp Hbr;
    [constructor|].
  apply Forall_cons in Hno as [Hno_t Hno].
  apply Forall_cons in Hsp as [Hsp_t Hsp].
  apply Forall_cons in Hbr as [Hbr_t Hbr].
  unfold originals in *. simpl.
  destruct (decide (kind t = S_END)) as [He|He]; simpl.
  { rewrite decide_True by done. rewrite Hno_t by (by right). by apply IH. }
  destruct (falsy (origin_spans t) || falsy (original t)) eqn:Hf.
  { rewrite Hno_t by (left; unfold has_span; by rewrite Hf). by apply IH. }
  simpl. rewrite decide_False by done.
  rewrite Hbr_t. simpl. constructor.
  - erewrite span_bytes_token; [|reflexivity..]. simpl.
    rewrite Hsp_t; [done|]. unfold has_span. by rewrite Hf.
  - rewrite <- utf8_byte_length_app, app_assoc.
    apply IH; [by rewrite <- app_assoc|done..].
Qed.

(** X2. On tokens that keep the tokenizer's promise and among which none
    opens a brace span, every Word of [_tokenize] is reproduced by
    its span of the input buffer. *)
Lemma tokenize_plain_span_reproduced tokenize_without_annotation text :
  tokens_of_text text (tokenize_without_annotation text) ->
  Forall opens_no_brace (tokenize_without_annotation text) ->
  Forall (fun w => span_bytes text w = encode (original_symbol w))
    (_tokenize tokenize_without_annotation text).
Proof.
  intros (Htext & Hno & Hsp) Hbr.
  by apply (tokenize_loop_plain_spans _ []).
Qed.

(** C1 (the code departs from the claim). On the text [{a b}], with
    the tokens the tokenizer reads from it (the braces apart, or left
    on the words), [BasicNormalizer.normalize] yields one Word whose
    [original_symbol] is [{ab}] while its offsets are those of the
    last token alone: the bytes of the buffer at
    [[start_byte_offset, end_byte_offset)] are not the Word's
    [original_symbol]. *)
Theorem tokenize_brace_span_not_reproduced tokenize_without_annotation ssml :
  tokenize_without_annotation (lit "{a b}") = brace_tokens_fine
  \/ tokenize_without_annotation (lit "{a b}") = brace_tokens_coarse ->
  tokens_of_text (lit "{a b}") (tokenize_without_annotation (lit "{a b}"))
  /\ exists w,
       BasicNormalizer.normalize tokenize_without_annotation (lit "{a b}") ssml
       = [w]
       /\ original_symbol w = lit "{ab}"
       /\ end_byte_offset w = 5
       /\ (start_byte_offset w = 4 \/ start_byte_offset w = 3)
       /\ span_bytes (lit "{a b}") w <> encode (original_symbol w).
Proof.
  unfold BasicNormalizer.normalize, _tokenize.
  intros [-> | ->].
  - split.
    + split; [reflexivity|].
      split; repeat constructor; intros H; try reflexivity;
        destruct H; discriminate.
    + eexists. split; [reflexivity|].
      repeat split; [by left|vm_compute; discriminate].
  - split.
    + split; [reflexivity|].
      split; repeat constructor; intros H; try reflexivity;
        destruct H; discriminate.
    + eexists. split; [reflexivity|].
      repeat split; [by right|vm_compute; discriminate].
Qed.

Lemma tokenize_brace_span_not_reproduced_witness :
  exists w,
    BasicNormalizer.normalize (tokenizer_of brace_tokens_fine)
      (lit "{a b}") false
    = [w]
    /\ original_symbol w = lit "{ab}"
    /\ end_byte_offset w = 5
    /\ (start_byte_offset w = 4 \/ start_byte_offset w = 3)
    /\ span_bytes (lit "{a b}") w <> encode (original_symbol w).
Proof.
  apply (tokenize_brace_span_not_reproduced
           (tokenizer_of brace_tokens_fine) false).
  left. reflexivity.
Defined.





(** C10. When, in the tokens of the text, the scanner is outside
    braces after the tokens [pre], the next token opens a brace span
    (it starts with an opening brace and does not end with a closing
    one) and no later token ends with a closing brace, [_tokenize]
    yields the Words of [pre] and nothing more: neither the opening
    token nor any token after it yields a Word. *)
Theorem tokenize_unterminated_brace tokenize_without_annotation text
    pre t post :
  tokenize_without_annotation text = pre ++ t :: post ->
  snd (scanner_after [] false (add_token_offsets pre)) = false ->
  kind t <> S_END ->
  has_span t = true ->
  startswith (strip (default [] (original t))) open_brace = true ->
  endswith (strip (default [] (original t))) close_brace = false ->
  Forall leaves_brace_open post ->
  _tokenize tokenize_without_annotation text = tokenize_tokens pre.
Proof.
  intros Htok Hout Hk Hs Hopen Hclose Hpost.
  unfold _tokenize. rewrite Htok.
  unfold tokenize_tokens, add_token_offsets in *.
  rewrite add_token_offsets_app, tokenize_loop_app, Hout.
  rewrite <- (app_nil_r (tokenize_loop [] false _)) at 2. f_equal.
  unfold has_span in Hs. apply negb_true_iff in Hs.
  simpl. rewrite decide_False by done. rewrite Hs.
  simpl. rewrite decide_False by done. rewrite Hopen, Hclose. simpl.
  by apply tokenize_loop_open_silent.
Qed.

Lemma tokenize_unterminated_brace_witness :
  _tokenize
    (tokenizer_of (unterminated_pre ++ unterminated_open :: unterminated_post))
    (lit "Hi {a b")
  = tokenize_tokens unterminated_pre.
Proof.
  apply (tokenize_unterminated_brace _ _
           unterminated_pre unterminated_open unterminated_post).
  - reflexivity.
  - reflexivity.
  - discriminate.
  - reflexivity.
  - reflexivity.
  - reflexivity.
  - repeat constructor; intros ? ?; try reflexivity; contradiction.
Defined.

End NormalizationFacts.

(** ** The translator chain *)

Module G2PFacts.
Import G2P Props.
Import GraphemeToPhonemeTranslatorBase.

(** The pattern matches the ASCII punctuation but the brackets, the
    braces and, being read as an escape, the backslash. *)
Lemma is_punctuation_ascii :
  filter (fun c => is_punctuation c = true) (map N.of_nat (seq 0 128))
  = filter (fun c => c ∉ [91; 92; 93; 123; 125]%N) string_punctuation.
Proof. vm_compute. reflexivity. Qed.

Section TranslateWordsFacts.
Variable translate : str -> LangID -> Alphabet -> PhoneSeq.
Variable is_spoken : Word -> bool.
Variable lang : LangID.
Variable alphabet : Alphabet.

Local Abbreviation step := (translate_words_step translate is_spoken lang alphabet).
Local Abbreviation run h words :=
  (translate_words translate is_spoken h words lang alphabet).
Local Abbreviation tr w :=
  (set_phone_sequence w (g2p_phones translate w lang alphabet)).


Lemma fresh_dom_ne (h : heap) r w : h !! r = Some w -> fresh (dom h) <> r.
Proof.
  intros Hr Heq. apply (is_fresh (dom h)). rewrite Heq.
  apply elem_of_dom. eauto.
Qed.

(** One iteration: the Word at [r] is translated if it should be, the
    other Words are left alone, and [r] is yielded, followed at most
    by a fresh marker. *)
Lemma step_heap (h : heap) r word :
  h !! r = Some word ->
  (forall r0 w, h !! r0 = Some w ->
     fst (step h r) !! r0
     = Some (if decide (r0 = r)
             then (if should_translate w then tr w else w)
             else w))
  /\ (snd (step h r) = [r]
      \/ exists m, snd (step h r) = [r; m] /\ m ∉ dom h).
Proof.
  intros Hr. unfold translate_words_step. rewrite Hr.
  assert (Hupd : forall r0 w, h !! r0 = Some w ->
    (if should_translate word
     then <[r := if should_translate word then tr word else word]> h
     else h) !! r0
    = Some (if decide (r0 = r)
            then (if should_translate w then tr w else w)
            else w)).
  { intros r0 w H0. destruct (decide (r0 = r)) as [->|Hne].
    - assert (w = word) as -> by congruence.
      destruct (should_translate word); [apply lookup_insert_eq|done].
    - destruct (should_translate word); [by rewrite lookup_insert_ne|done]. }
  destruct (is_spoken _ && _); simpl; (split; [|]).
  - intros r0 w H0. rewrite lookup_insert_ne; [by apply Hupd|].
    eapply fresh_dom_ne, Hupd, H0.
  - right. eexists. split; [done|]. intros [w Hm]%elem_of_dom.
    eapply fresh_dom_ne; [apply (Hupd _ _ Hm)|done].
  - apply Hupd.
  - by left.
Qed.

Lemma g2p_phones_set w ps :
  g2p_phones translate (set_phone_sequence w ps) lang alphabet
  = g2p_phones translate w lang alphabet.
Proof. reflexivity. Qed.

(** The whole run, for a set [D] of allocated references that holds
    the input: what is yielded, and what each Word of the heap has
    become. *)
Lemma translate_words_run words : forall (h : heap) (D : gset nat),
  D ⊆ dom h ->
  Forall (fun r => r ∈ D) words ->
  filter (fun r => r ∈ D) (snd (run h words)) = words
  /\ forall r w, h !! r = Some w ->
       fst (run h words) !! r
       = Some (if decide (r ∈ words)
               then (if should_translate w then tr w else w)
               else w).
Proof.
  induction words as [|a words IH]; intros h D HD Hall; simpl.
  { split; [done|]. intros r w Hr. by rewrite Hr. }
  apply Forall_cons in Hall as [Ha Hall].
  assert (exists word, h !! a = Some word) as [word Hword].
  { apply elem_of_dom. by apply HD. }
  destruct (step_heap h a word Hword) as [Hheap Hout].
  destruct (step h a) as [h1 out1] eqn:Hs. simpl in Hheap, Hout.
  assert (HD1 : D ⊆ dom h1).
  { intros r [w Hr]%HD%elem_of_dom. apply elem_of_dom.
    rewrite (Hheap _ _ Hr). eauto. }
  destruct (IH h1 D HD1 Hall) as [IHout IHheap].
  destruct (run h1 words) as [h2 out2] eqn:Hr2. simpl in *.
  split.
  - rewrite filter_app, IHout.
    destruct Hout as [->|(m & -> & Hm)].
    + rewrite filter_cons, decide_True by done. done.
    + rewrite !filter_cons, decide_True by done.
      rewrite decide_False; [done|]. intros Hin. apply Hm. by apply HD.
  - intros r w Hr. rewrite (IHheap _ _ (Hheap r w Hr)). f_equal.
    destruct (decide (r = a)) as [->|Hne].
    + rewrite (decide_True (P := a ∈ a :: words)) by left.
      destruct (should_translate w) eqn:Hst.
      * rewrite g2p_phones_set. by repeat case_match.
      * rewrite Hst. by case_match.
    + destruct (decide (r ∈ words)) as [Hin|Hin].
      * rewrite decide_True; [done|by right].
      * rewrite decide_False; [done|]. by intros [?|?]%elem_of_cons.
Qed.


(** C9. On a heap that holds the input Words, the references
    [translate_words] yields are, the freshly made markers apart, the
    input references in input order; every Word of the heap keeps its
    [original_symbol], [symbol], offsets and [ssml_props]; a Word
    that fails the translate condition, or is not in the input, is
    left as it was, and an input Word that meets the condition has
    its [phone_sequence] reassigned and nothing else. *)
Theorem translate_words_frame (h : heap) words :
  Forall (fun r => r ∈ dom h) words ->
  filter (fun r => r ∈ dom h) (snd (run h words)) = words
  /\ forall r w, h !! r = Some w ->
       exists w', fst (run h words) !! r = Some w'
                  /\ same_frame w w'
                  /\ (should_translate w = false -> w' = w)
                  /\ (r ∉ words -> w' = w)
                  /\ (r ∈ words -> should_translate w = true -> w' = tr w).
Proof.
  intros Hall.
  destruct (translate_words_run words h (dom h)) as [Hout Hheap];
    [done|done|].
  split; [done|]. intros r w Hr. eexists. split; [by apply Hheap|].
  destruct (decide (r ∈ words)), (should_translate w);
    by repeat split.
Qed.

End TranslateWordsFacts.


Lemma translate_words_frame_witness :
  filter (fun r => r ∈ dom example_heap)
    (snd (translate_words echo_translate has_symbol example_heap [0; 1; 2]
            (lit "is-IS") x_sampa_syll_stress))
  = [0; 1; 2].
Proof.
  apply (translate_words_frame echo_translate has_symbol (lit "is-IS")
           x_sampa_syll_stress example_heap [0; 1; 2]).
  repeat constructor; apply elem_of_dom; eexists; reflexivity.
Defined.

(** *** ComposedTranslator *)

Lemma first_non_empty_cons phone results :
  first_non_empty (phone :: results)
  = if truthy phone then phone else first_non_empty results.
Proof.
  unfold first_non_empty. rewrite filter_cons.
  destruct phone as [|p phone].
  - rewrite decide_False; [done|]. by intros H.
  - by rewrite decide_True.
Qed.

Lemma translate_loop_first translators text lang alphabet : forall phone,
  phone = [] ->
  ComposedTranslator.translate_loop phone translators text lang alphabet
  = first_non_empty (map (fun t => translate t text lang alphabet) translators).
Proof.
  induction translators as [|t translators IH]; intros phone ->; [done|].
  simpl. rewrite first_non_empty_cons.
  destruct (translate t text lang alphabet) eqn:Ht; simpl; [|done].
  by apply IH.
Qed.

(** C4. The result of [ComposedTranslator.translate] is the first
    non-empty result among those of its translators, taken in
    construction order, and the empty sequence if there is none; so
    for a translator [T1] with an empty answer for the word and [T2]
    answering [[p1, p2]], the chain of [T1] and [T2] answers
    [[p1, p2]], and a chain whose translators all answer empty
    answers empty. *)
Theorem composed_translate_first_match :
  (forall self text lang alphabet,
     ComposedTranslator.translate self text lang alphabet
     = first_non_empty
         (map (fun t => translate t text lang alphabet)
              (ComposedTranslator._translators self)))
  /\ (forall T1 T2 W lang alphabet p1 p2,
        translate T1 W lang alphabet = [] ->
        translate T2 W lang alphabet = [p1; p2] ->
        exists self,
          ComposedTranslator.__init__ [T1; T2] = inr self
          /\ ComposedTranslator.translate self W lang alphabet = [p1; p2])
  /\ (forall self text lang alphabet,
        Forall (fun t => translate t text lang alphabet = [])
               (ComposedTranslator._translators self) ->
        ComposedTranslator.translate self text lang alphabet = []).
Proof.
  assert (Hfirst : forall self text lang alphabet,
     ComposedTranslator.translate self text lang alphabet
     = first_non_empty
         (map (fun t => translate t text lang alphabet)
              (ComposedTranslator._translators self)))
    by (intros; by apply translate_loop_first).
  split; [done|]. split.
  - intros T1 T2 W lang alphabet p1 p2 H1 H2. eexists. split; [done|].
    rewrite Hfirst. simpl. rewrite !first_non_empty_cons, H1, H2. done.
  - intros [translators] text lang alphabet Hall. rewrite Hfirst. simpl in *.
    induction Hall as [|t translators Ht _ IH]; [done|].
    simpl. by rewrite first_non_empty_cons, Ht.
Qed.

Lemma composed_translate_first_match_witness :
  exists self,
    ComposedTranslator.__init__ [T_empty; T_two] = inr self
    /\ ComposedTranslator.translate self (lit "W") (lit "is-IS") ipa
       = [lit "p1"; lit "p2"].
Proof.
  apply (proj1 (proj2 composed_translate_first_match)
           T_empty T_two (lit "W") (lit "is-IS") ipa (lit "p1") (lit "p2")).
  - reflexivity.
  - reflexivity.
Defined.

(** *** The lexicon-backed translator *)

Section LexiconFacts.
Import LexiconGraphemeToPhonemeTranslator.
Variable lower : str -> str.
Variable convert_ipa_to_xsampa : PhoneSeq -> PhoneSeq.
Variable convert_xsampa_to_xsampa_with_stress : PhoneSeq -> str -> PhoneSeq.

Local Abbreviation lexicon_translate :=
  (_translate lower convert_ipa_to_xsampa convert_xsampa_to_xsampa_with_stress).

(** C5. [_translate] looks the word up as it is and, only if that
    gives nothing, in lower case; the phones for an alphabet are the
    conversion of the phones found, the keys looked up being the same
    for every alphabet; and on a total miss the result is empty, the
    converters sending the empty sequence to itself. *)
Theorem lexicon_translate_lookup lexicon w lang alphabet :
  lexicon_consistent lexicon ->
  let verbatim := get lexicon w [] in
  let lowered := get lexicon (lower w) [] in
  let found := if truthy verbatim then verbatim else lowered in
  lexicon_translate lexicon w lang ipa = found
  /\ lexicon_translate lexicon w lang alphabet
     = match alphabet with
       | ipa => found
       | x_sampa => convert_ipa_to_xsampa found
       | x_sampa_syll_stress =>
           convert_xsampa_to_xsampa_with_stress (convert_ipa_to_xsampa found) w
       end
  /\ (convert_ipa_to_xsampa [] = [] ->
      convert_xsampa_to_xsampa_with_stress [] w = [] ->
      verbatim = [] -> lowered = [] ->
      lexicon_translate lexicon w lang alphabet = []).
Proof.
  intros Hcons verbatim lowered found.
  assert (Hfound :
    (if lexicon_bool lexicon
     then if negb (truthy verbatim) then lowered else verbatim
     else []) = found).
  { subst found. destruct (lexicon_bool lexicon) eqn:Hb.
    - by destruct (truthy verbatim).
    - subst verbatim lowered. unfold get. rewrite (Hcons Hb).
      by rewrite !lookup_empty. }
  assert (Halpha : lexicon_translate lexicon w lang alphabet
     = match alphabet with
       | ipa => found
       | x_sampa => convert_ipa_to_xsampa found
       | x_sampa_syll_stress =>
           convert_xsampa_to_xsampa_with_stress (convert_ipa_to_xsampa found) w
       end).
  { unfold _translate. fold verbatim lowered. rewrite Hfound.
    by destruct alphabet. }
  split; [|split; [done|]].
  - unfold _translate. fold verbatim lowered. by rewrite Hfound.
  - intros Hc1 Hc2 Hv Hl. rewrite Halpha. subst found. rewrite Hv, Hl. simpl.
    destruct alphabet; by rewrite ?Hc1, ?Hc2.
Qed.

End LexiconFacts.

(** The word [Word], absent from the lexicon as written, is found
    under [word]. *)
Lemma lexicon_translate_lookup_witness :
  LexiconGraphemeToPhonemeTranslator._translate
    ascii_lower (fun phones => phones) (fun phones _ => phones)
    word_lexicon (lit "Word") (lit "is-IS") ipa
  = [lit "w"; lit "o"; lit "r"; lit "d"].
Proof.
  apply (proj1 (lexicon_translate_lookup
                  ascii_lower (fun phones => phones) (fun phones _ => phones)
                  word_lexicon (lit "Word") (lit "is-IS") ipa
                  (fun H => False_ind _ (Bool.diff_true_false H)))).
Defined.

(** *** The model-backed translator *)

Section IceG2PFacts.
Import IceG2PTranslator.
Variable lower : str -> str.
Variable transcribe : Transcriber -> str -> PyError + str.
Variable convert_xsampa_to_ipa : PhoneSeq -> PhoneSeq.

Local Abbreviation ice_translate :=
  (_translate lower transcribe convert_xsampa_to_ipa).

(** When the call to the engine returns, the syllable symbol is the
    one the call found. *)
Lemma ice_translate_restores_on_return transcriber text lang alphabet phones :
  snd (ice_translate transcriber text lang alphabet) = inr phones ->
  fst (ice_translate transcriber text lang alphabet) = transcriber.
Proof.
  unfold _translate. destruct transcriber as [sym]. simpl.
  repeat case_bool_decide; simpl; try done;
    destruct (transcribe _ _); simpl; done.
Qed.

(** When the call to the engine raises and the alphabet is not the
    stress one, the syllable symbol is left empty. *)
Lemma ice_translate_raise_leaves_empty transcriber text lang alphabet e :
  alphabet <> x_sampa_syll_stress ->
  strip (remove_punctuation text) <> [] ->
  transcribe {| syllab_symbol := [] |} (lower (remove_punctuation text))
  = inl e ->
  ice_translate transcriber text lang alphabet
  = ({| syllab_symbol := [] |}, inl e).
Proof.
  intros Ha Ht He. unfold _translate.
  rewrite bool_decide_eq_false_2 by done.
  rewrite bool_decide_eq_true_2 by done.
  by rewrite He.
Qed.

End IceG2PFacts.

(** C6 (the code departs from the claim). A call for the alphabet
    [ipa] during which the engine raises leaves the transcriber with
    an empty syllable symbol, where it was [.] before the call: the
    symbol is not restored on this path. *)
Theorem ice_translate_not_restored_on_raise :
  let before := IceG2PTranslator.__init__ in
  let call :=
    IceG2PTranslator._translate ascii_lower failing_transcribe
      (fun phones => phones) before (lit "a") (lit "is-IS") ipa in
  snd call = inl ExternalError
  /\ IceG2PTranslator.syllab_symbol before = lit "."
  /\ IceG2PTranslator.syllab_symbol (fst call) = []
  /\ fst call <> before.
Proof.
  cbv zeta.
  rewrite (ice_translate_raise_leaves_empty ascii_lower failing_transcribe
             (fun phones => phones) IceG2PTranslator.__init__
             (lit "a") (lit "is-IS") ipa ExternalError);
    [|discriminate|vm_compute; discriminate|reflexivity].
  repeat split. discriminate.
Qed.

End G2PFacts.

(** ** The remote-normalization realigner *)

Module RealignerFacts.
Import Normalization Props.
Import GrammatekNormalizer.

Section SentenceLoop.
Variable is_spoken : Word -> bool.
Variable consume_whitespace : str -> bool -> nat * nat.

Local Abbreviation loop := (sentence_loop is_spoken consume_whitespace).

(** X9. In SSML mode, at a spoken token whose markup Word is a multi-word
    phoneme tag, the Word yielded carries the full markup text, and
    the loop goes on after exactly one more service token, however
    many pieces the text has. *)
Lemma sentence_loop_multi_skips_one parsed_text st original normalized
    skipped rest parsed props :
  is_spoken (mkWord original [] [] 0 0) = true ->
  parsed_text !! p_idx st = Some parsed ->
  ssml_props parsed = Some props ->
  tag_type props = lit "phoneme" ->
  is_multi props = true ->
  split (original_symbol parsed) <> [] ->
  exists w st',
    loop true parsed_text st ((original, normalized) :: skipped :: rest)
    = yield_then w (loop true parsed_text st' rest)
    /\ original_symbol w = original_symbol parsed
    /\ symbol w = normalized
    /\ phone_sequence w = phone_sequence parsed
    /\ p_idx st' = p_idx st + 1.
Proof.
  intros Hs Hp Hprops Htag Hmulti Hsplit. simpl. rewrite Hs. simpl.
  destruct (consume_whitespace _ _) as [n_chars n_bytes].
  unfold markup_lookup. rewrite Hp, Hprops, Hmulti.
  rewrite bool_decide_eq_true_2 by done. simpl.
  destruct (split (original_symbol parsed)) as [|piece pieces]; [done|].
  simpl. eexists _, _. split; [reflexivity|]. by repeat split.
Qed.

(** C7 (the code departs from the claim). For the phoneme tag of the
    three words [a b c], followed by the word [d], with the service
    returning the tokens [a], [b], [c], [d]: the realigner yields the
    Word for [a b c], passes over [b] alone, yields [c] again as a
    Word of its own with the phones of [d], and fails at [d] with an
    index out of the parsed Words. *)
Theorem realigner_three_piece_phoneme st :
  (forall o, is_spoken (mkWord (lit o) [] [] 0 0) = true) ->
  p_idx st = 0 ->
  let out := loop true three_piece_parsed st three_piece_sentence in
  length (split (lit "a b c")) = 3
  /\ map original_symbol (fst out) = [lit "a b c"; lit "c"]
  /\ map phone_sequence (fst out) = [[lit "x"; lit "y"; lit "z"]; [lit "D"]]
  /\ snd out = inl IndexError.
Proof.
  intros Hs Hp out. subst out. unfold three_piece_sentence. simpl.
  rewrite (Hs "a"), (Hs "c"), (Hs "d"). simpl.
  destruct (consume_whitespace _ _) as [c1 b1]. rewrite Hp. simpl.
  destruct (consume_whitespace _ _) as [c2 b2]. simpl.
  destruct (consume_whitespace _ _) as [c3 b3]. simpl.
  repeat split.
Qed.

End SentenceLoop.

Lemma realigner_three_piece_phoneme_witness :
  let out :=
    sentence_loop (fun _ => true) (fun _ _ => (0, 0)) true three_piece_parsed
      (start_cursor (lit "a b c d")) three_piece_sentence in
  length (split (lit "a b c")) = 3
  /\ map original_symbol (fst out) = [lit "a b c"; lit "c"]
  /\ map phone_sequence (fst out) = [[lit "x"; lit "y"; lit "z"]; [lit "D"]]
  /\ snd out = inl IndexError.
Proof.
  apply (realigner_three_piece_phoneme (fun _ => true) (fun _ _ => (0, 0))
           (start_cursor (lit "a b c d"))).
  - intros o. reflexivity.
  - reflexivity.
Defined.

End RealignerFacts.

(** ** More on the tokenizer *)

Module TokenizerMore.
Import Normalization Props MoreProps NormalizationFacts.

Lemma tokenize_plain_span_reproduced_witness :
  Forall (fun w => span_bytes (lit "Hi you.") w = encode (original_symbol w))
    (_tokenize (tokenizer_of plain_tokens) (lit "Hi you.")).
Proof.
  apply (tokenize_plain_span_reproduced (tokenizer_of plain_tokens)
           (lit "Hi you.")).
  - split; [reflexivity|].
    split; repeat constructor; intros H; try reflexivity;
      destruct H; discriminate.
  - repeat constructor.
Defined.

Lemma tokenize_loop_within tokens : forall n segs open,
  Forall (fun w => end_byte_offset w
                   <= n + utf8_byte_length (originals tokens))
    (tokenize_loop segs open (add_token_offsets_from n tokens)).
Proof.
  induction tokens as [|t tokens IH]; intros n segs open; [constructor|].
  assert (Hgrow : forall segs' open',
    Forall (fun w => end_byte_offset w
                     <= n + utf8_byte_length (originals (t :: tokens)))
      (tokenize_loop segs' open' (add_token_offsets_from n tokens))).
  { intros. eapply Forall_impl; [apply IH|]. simpl. intros w Hw.
    unfold originals in *. simpl. rewrite utf8_byte_length_app. lia. }
  simpl. destruct (decide (kind t = S_END)) as [He|He]; simpl.
  { rewrite decide_True by done. apply Hgrow. }
  destruct (falsy (origin_spans t) || falsy (original t)); [apply Hgrow|].
  simpl. rewrite decide_False by done.
  set (orig := default [] (original t)).
  set (a := hd 0 (default [] (origin_spans t))).
  set (b := List.last (default [] (origin_spans t)) 0).
  pose proof (span_within a (b + 1) orig) as Hw.
  assert (Hrest : forall segs' open',
    Forall (fun w => end_byte_offset w
                     <= n + utf8_byte_length (originals (t :: tokens)))
      (tokenize_loop segs' open'
         (add_token_offsets_from (n + utf8_byte_length orig) tokens))).
  { intros. eapply Forall_impl; [apply IH|]. simpl. intros w Hle.
    unfold originals in *. simpl. fold orig.
    rewrite utf8_byte_length_app. lia. }
  assert (Hhere : n + utf8_byte_length (take a orig)
                  + utf8_byte_length (slice a (b + 1) orig)
                  <= n + utf8_byte_length (originals (t :: tokens))).
  { unfold originals. simpl. fold orig. rewrite utf8_byte_length_app. lia. }
  destruct open.
  - destruct (endswith _ _); [|apply Hrest].
    constructor; [exact Hhere|apply Hrest].
  - destruct (startswith _ _ && negb (endswith _ _)); [apply Hrest|].
    constructor; [exact Hhere|apply Hrest].
Qed.

(** X3. No Word of [_tokenize] ends past the bytes of the text the tokens
    were read from. *)
Theorem tokenize_offsets_within_text tokenize_without_annotation text :
  Forall (fun w => end_byte_offset w
                   <= utf8_byte_length
                        (originals (tokenize_without_annotation text)))
    (_tokenize tokenize_without_annotation text).
Proof. apply (tokenize_loop_within _ 0). Qed.

Lemma tokenize_loop_outside tokens : forall n segs,
  Forall stays_outside tokens ->
  tokenize_loop segs false (add_token_offsets_from n tokens)
  = map word_of_token
      (filter (fun x => kind (fst (fst x)) <> S_END)
              (add_token_offsets_from n tokens)).
Proof.
  induction tokens as [|t tokens IH]; intros n segs Hall; [done|].
  apply Forall_cons in Hall as [Ht Hall]. simpl.
  destruct (decide (kind t = S_END)) as [He|He].
  { rewrite filter_cons. simpl. rewrite decide_True by done.
    rewrite decide_False by (intros H; by apply H). by apply IH. }
  destruct (falsy (origin_spans t) || falsy (original t)) eqn:Hf;
    [by apply IH|].
  rewrite filter_cons. simpl. rewrite decide_False by done.
  rewrite decide_True by done.
  rewrite Ht; [|done|unfold has_span; by rewrite Hf].
  simpl. f_equal. by apply IH.
Qed.

(** X4. When no token opens a brace span, [_tokenize] yields one Word for
    each token that has a span and is not a sentence end, in order:
    the token's original without the whitespace around it, as symbol
    and as original symbol, at the token's offsets. *)
Theorem tokenize_without_braces tokenize_without_annotation text :
  Forall stays_outside (tokenize_without_annotation text) ->
  _tokenize tokenize_without_annotation text
  = map word_of_token
      (filter (fun x => kind (fst (fst x)) <> S_END)
              (add_token_offsets (tokenize_without_annotation text))).
Proof. apply tokenize_loop_outside. Qed.

Lemma tokenize_without_braces_witness :
  _tokenize (tokenizer_of plain_tokens) (lit "Hi you.")
  = map word_of_token
      (filter (fun x => kind (fst (fst x)) <> S_END)
              (add_token_offsets plain_tokens)).
Proof.
  apply (tokenize_without_braces (tokenizer_of plain_tokens) (lit "Hi you.")).
  repeat constructor; intros ? ?; reflexivity.
Defined.

Lemma tokenize_loop_span_closes mid : forall segs tclose s e rest,
  Forall keeps_span_open mid ->
  kind tclose <> S_END ->
  endswith (stripped (tclose, s, e)) close_brace = true ->
  tokenize_loop segs true (mid ++ (tclose, s, e) :: rest)
  = (let segments :=
       join (segs
             ++ map stripped
                  (filter (fun x => kind (fst (fst x)) <> S_END)
                          (mid ++ [(tclose, s, e)]))) in
     mkWord segments segments [] s e)
    :: tokenize_loop [] false rest.
Proof.
  induction mid as [|[[t s'] e'] mid IH]; intros segs tclose s e rest
    Hmid Hk Hclose.
  - simpl. rewrite decide_False by done.
    unfold stripped in Hclose. simpl in Hclose. rewrite Hclose.
    rewrite filter_cons, decide_True by done. done.
  - apply Forall_cons in Hmid as [Ht Hmid]. simpl.
    destruct (decide (kind t = S_END)) as [He|He].
    + rewrite filter_cons. simpl.
      rewrite decide_False by (intros H; by apply H). by apply IH.
    + rewrite filter_cons. simpl. rewrite decide_True by done.
      unfold keeps_span_open, stripped in Ht. simpl in Ht.
      rewrite Ht by done. rewrite IH by done. simpl.
      by rewrite <- app_assoc.
Qed.

(** X5. A brace span over several tokens becomes one Word: from outside
    braces, a token that opens a span, tokens that do not close it and
    a token that ends with a closing brace yield one Word whose symbol
    is their texts put end to end, with nothing between them, at the
    offsets of the closing token; the scanner is then outside braces
    again. *)
Theorem tokenize_brace_span_joined topen s0 e0 mid tclose s e rest :
  kind topen <> S_END ->
  startswith (stripped (topen, s0, e0)) open_brace = true ->
  endswith (stripped (topen, s0, e0)) close_brace = false ->
  Forall keeps_span_open mid ->
  kind tclose <> S_END ->
  endswith (stripped (tclose, s, e)) close_brace = true ->
  tokenize_loop [] false ((topen, s0, e0) :: mid ++ (tclose, s, e) :: rest)
  = (let segments :=
       join (map stripped
               (filter (fun x => kind (fst (fst x)) <> S_END)
                       ((topen, s0, e0) :: mid ++ [(tclose, s, e)]))) in
     mkWord segments segments [] s e)
    :: tokenize_loop [] false rest.
Proof.
  intros Hk Hopen Hnot Hmid Hkc Hclose.
  unfold stripped in Hopen, Hnot. simpl in Hopen, Hnot.
  simpl. rewrite decide_False by done. rewrite Hopen, Hnot. simpl.
  rewrite tokenize_loop_span_closes by done.
  rewrite (filter_cons _ (topen, s0, e0)). simpl.
  by rewrite decide_True by done.
Qed.

Lemma tokenize_brace_span_joined_witness :
  tokenize_loop [] false
    ((tok UNKNOWN "{a" [0; 1], 0, 2)
       :: [(tok WORD " b" [1], 3, 4)]
       ++ (tok UNKNOWN " c}" [1; 2], 5, 7)
       :: [(tok WORD " d" [1], 8, 9)])
  = [mkWord (lit "{abc}") (lit "{abc}") [] 5 7;
     mkWord (lit "d") (lit "d") [] 8 9].
Proof.
  apply (tokenize_brace_span_joined (tok UNKNOWN "{a" [0; 1]) 0 2
           [(tok WORD " b" [1], 3, 4)] (tok UNKNOWN " c}" [1; 2]) 5 7
           [(tok WORD " d" [1], 8, 9)]).
  - discriminate.
  - reflexivity.
  - reflexivity.
  - repeat constructor.
  - discriminate.
  - reflexivity.
Defined.

Lemma add_token_offsets_from_kept tokens : forall n,
  map (fun x => fst (fst x)) (add_token_offsets_from n tokens)
  = filter (fun t => kind t = S_END \/ has_span t = true) tokens.
Proof.
  induction tokens as [|t tokens IH]; intros n; [done|].
  simpl. rewrite filter_cons.
  destruct (decide (kind t = S_END)) as [He|He].
  { rewrite decide_True by (by left). simpl. by rewrite IH. }
  destruct (falsy (origin_spans t) || falsy (original t)) eqn:Hf; simpl.
  - rewrite decide_False; [apply IH|].
    intros [?|Hs]; [done|]. unfold has_span in Hs. by rewrite Hf in Hs.
  - rewrite decide_True; [simpl; by rewrite IH|].
    right. unfold has_span. by rewrite Hf.
Qed.

(** X6. [add_token_offsets] gives offsets to the sentence ends and to the
    tokens that have a span, in the order of the input, and to no
    other token. *)
Theorem add_token_offsets_kept tokens :
  map (fun x => fst (fst x)) (add_token_offsets tokens)
  = filter (fun t => kind t = S_END \/ has_span t = true) tokens.
Proof. apply add_token_offsets_from_kept. Qed.

End TokenizerMore.

(** ** More on the realigner *)

Module RealignerMore.
Import Normalization Props MoreProps.
Import GrammatekNormalizer.

Section Loops.
Variable is_spoken : Word -> bool.
Variable consume_whitespace : str -> bool -> nat * nat.

Local Abbreviation loop := (sentence_loop is_spoken consume_whitespace).
Local Abbreviation loops := (sentences_loop is_spoken consume_whitespace).

(** *** Plain text *)



Section Normalize.
Variable parse_ssml : str -> PyError + (str * list Word).
Variable NormalizeTokenwise : str -> PyError + list (list (str * str)).

Local Abbreviation normalize_plain text :=
  (normalize is_spoken consume_whitespace parse_ssml NormalizeTokenwise
     text false).


End Normalize.

(** *** Offsets *)

Lemma sentence_loop_chain text_is_ssml parsed_text k : forall sent st,
  length sent <= k ->
  offsets_from (n_bytes_consumed st)
    (fst (loop text_is_ssml parsed_text st sent))
  /\ Forall (fun w => end_byte_offset w
                      = start_byte_offset w
                        + utf8_byte_length (original_symbol w))
       (fst (loop text_is_ssml parsed_text st sent))
  /\ match snd (loop text_is_ssml parsed_text st sent) with
     | inr st' =>
         n_bytes_consumed st <= n_bytes_consumed st'
         /\ Forall (fun w => end_byte_offset w <= n_bytes_consumed st')
              (fst (loop text_is_ssml parsed_text st sent))
     | inl _ => True
     end.
Proof.
  induction k as [|k IH]; intros sent st Hk.
  { destruct sent; [by repeat split|simpl in Hk; lia]. }
  destruct sent as [|[original normalized] sent]; [by repeat split|].
  simpl in Hk. simpl. destruct (consume_whitespace _ _) as [n_chars n_bytes].
  destruct (if text_is_ssml && is_spoken _ then _ else _)
    as [e|[[phoneme_multi original'] phones]]; [by repeat split|].
  assert (Hstep : forall st' sent',
    length sent' <= k ->
    n_bytes_consumed st'
    = n_bytes_consumed st + n_bytes + utf8_byte_length original' ->
    let w := mkWord original' normalized phones
               (n_bytes_consumed st + n_bytes)
               (n_bytes_consumed st + n_bytes + utf8_byte_length original') in
    let out := yield_then w (loop text_is_ssml parsed_text st' sent') in
    offsets_from (n_bytes_consumed st) (fst out)
    /\ Forall (fun w => end_byte_offset w
                        = start_byte_offset w
                          + utf8_byte_length (original_symbol w)) (fst out)
    /\ match snd out with
       | inr st'' =>
           n_bytes_consumed st <= n_bytes_consumed st''
           /\ Forall (fun w => end_byte_offset w <= n_bytes_consumed st'')
                (fst out)
       | inl _ => True
       end).
  { intros st' sent' Hlen Hn w out.
    destruct (IH sent' st' Hlen) as (Hc & Hl & Hf). subst out. simpl.
    rewrite Hn in Hc. split; [repeat split; [lia|lia|done]|].
    split; [by constructor|].
    destruct (snd (loop text_is_ssml parsed_text st' sent')) as [e|st''];
      [done|].
    destruct Hf as [Hle Hall]. split; [lia|]. constructor; [simpl; lia|done]. }
  destruct (text_is_ssml && is_spoken _ && phoneme_multi).
  - destruct (length (split original')) as [|pieces].
    { simpl. repeat split; [lia|lia|by constructor]. }
    destruct sent as [|skipped sent].
    { simpl. repeat split; [lia|lia|by constructor]. }
    apply Hstep; simpl in *; [lia|done].
  - apply Hstep; simpl; [lia|done].
Qed.

(** X8. Within a sentence the offsets of the Words never go back, in
    either mode: each Word starts at or after the end of the one
    before, spans the bytes of its original symbol, and ends at or
    before the byte count the loop is left with. *)
Theorem sentence_loop_offsets text_is_ssml parsed_text st sent :
  offsets_from (n_bytes_consumed st)
    (fst (loop text_is_ssml parsed_text st sent))
  /\ Forall (fun w => end_byte_offset w
                      = start_byte_offset w
                        + utf8_byte_length (original_symbol w))
       (fst (loop text_is_ssml parsed_text st sent))
  /\ match snd (loop text_is_ssml parsed_text st sent) with
     | inr st' =>
         n_bytes_consumed st <= n_bytes_consumed st'
         /\ Forall (fun w => end_byte_offset w <= n_bytes_consumed st')
              (fst (loop text_is_ssml parsed_text st sent))
     | inl _ => True
     end.
Proof. by apply (sentence_loop_chain _ _ (length sent)). Qed.

(** *** SSML with one-word tags *)

(** X10. In SSML mode, when no Word of the parsed markup is a multi-word
    phoneme tag and the markup has a Word for every spoken token that
    is left, the loop does not raise: it yields one Word for each
    pair, the spoken ones with the phone sequences of the parsed Words
    in order, the others with none, and moves its index into the
    markup by the number of spoken tokens. *)
Theorem sentence_loop_ssml_in_step parsed_text sent : forall st,
  Forall one_word_tag parsed_text ->
  p_idx st
  + length (filter (fun pair => said is_spoken (fst pair) = true) sent)
  <= length parsed_text ->
  exists st',
    snd (loop true parsed_text st sent) = inr st'
    /\ p_idx st'
       = p_idx st
         + length (filter (fun pair => said is_spoken (fst pair) = true) sent)
    /\ map original_symbol (fst (loop true parsed_text st sent))
       = map fst sent
    /\ map symbol (fst (loop true parsed_text st sent)) = map snd sent
    /\ map phone_sequence
         (filter (fun w => said is_spoken (original_symbol w) = true)
                 (fst (loop true parsed_text st sent)))
       = map phone_sequence
           (take (length (filter (fun pair =>
                                    said is_spoken (fst pair) = true) sent))
                 (drop (p_idx st) parsed_text))
    /\ Forall (fun w => said is_spoken (original_symbol w) = false ->
                        phone_sequence w = [])
         (fst (loop true parsed_text st sent)).
Proof.
  induction sent as [|[original normalized] sent IH]; intros st Htags Hlen.
  { exists st. simpl. repeat split; [lia|constructor]. }
  rewrite filter_cons in Hlen |- *. simpl in Hlen |- *.
  fold (said is_spoken original).
  destruct (consume_whitespace _ _) as [n_chars n_bytes].
  destruct (said is_spoken original) eqn:Hsaid.
  - rewrite decide_True in Hlen |- * by done. simpl in Hlen |- *.
    destruct (lookup_lt_is_Some_2 parsed_text (p_idx st)) as [parsed Hp];
      [lia|].
    unfold markup_lookup. rewrite Hp.
    rewrite Forall_forall in Htags.
    destruct (Htags parsed) as (props & Hprops & Hmulti);
      [by eapply list_elem_of_lookup_2|].
    rewrite Hprops, Hmulti. simpl.
    match goal with |- context [loop true parsed_text ?c sent] =>
      destruct (IH c) as (st' & Hsnd & Hidx & Ho & Hs & Hph & Hno) end.
    { by apply Forall_forall. }
    { simpl. lia. }
    simpl in *. exists st'. split; [done|]. split; [lia|].
    split; [by f_equal|]. split; [by f_equal|]. split.
    + rewrite filter_cons. simpl. rewrite decide_True by done. simpl.
      rewrite Hph. rewrite (drop_S _ _ _ Hp). simpl.
      by rewrite Nat.add_1_r.
    + constructor; [simpl; congruence|done].
  - rewrite decide_False in Hlen |- * by done. simpl.
    match goal with |- context [loop true parsed_text ?c sent] =>
      destruct (IH c) as (st' & Hsnd & Hidx & Ho & Hs & Hph & Hno) end;
      [done|done|].
    simpl in *. exists st'. split; [done|]. split; [done|].
    split; [by f_equal|]. split; [by f_equal|]. split.
    + rewrite filter_cons. simpl. rewrite decide_False by congruence. done.
    + by constructor.
Qed.

End Loops.


Lemma sentence_loop_multi_skips_one_witness :
  exists w st',
    sentence_loop (fun _ => true) leading_blanks true three_piece_parsed
      (start_cursor (lit "a b c d")) three_piece_sentence
    = yield_then w
        (sentence_loop (fun _ => true) leading_blanks true three_piece_parsed
           st' [(lit "c", lit "c"); (lit "d", lit "d")])
    /\ original_symbol w = lit "a b c"
    /\ symbol w = lit "a"
    /\ phone_sequence w = [lit "x"; lit "y"; lit "z"]
    /\ p_idx st' = 1.
Proof.
  apply (RealignerFacts.sentence_loop_multi_skips_one (fun _ => true)
           leading_blanks three_piece_parsed (start_cursor (lit "a b c d"))
           (lit "a") (lit "a") (lit "b", lit "b")
           [(lit "c", lit "c"); (lit "d", lit "d")]
           {| original_symbol := lit "a b c"; symbol := lit "a b c";
              phone_sequence := [lit "x"; lit "y"; lit "z"];
              start_byte_offset := 0; end_byte_offset := 0;
              ssml_props := Some (props_of "phoneme" true) |}
           (props_of "phoneme" true)).
  - reflexivity.
  - reflexivity.
  - reflexivity.
  - reflexivity.
  - reflexivity.
  - discriminate.
Defined.

Lemma sentence_loop_ssml_in_step_witness :
  exists st',
    snd (sentence_loop not_comma leading_blanks true two_tags_parsed
           (start_cursor (lit "Hi, you")) two_tags_sentence)
    = inr st'
    /\ p_idx st' = 2
    /\ map phone_sequence
         (fst (sentence_loop not_comma leading_blanks true two_tags_parsed
                 (start_cursor (lit "Hi, you")) two_tags_sentence))
       = [[]; []; [lit "j"; lit "u"]].
Proof.
  destruct (sentence_loop_ssml_in_step not_comma leading_blanks
              two_tags_parsed two_tags_sentence
              (start_cursor (lit "Hi, you")))
    as (st' & Hsnd & Hidx & _).
  - repeat constructor; eexists; split; reflexivity.
  - vm_compute. lia.
  - exists st'. split; [exact Hsnd|]. split; [exact Hidx|]. reflexivity.
Defined.

End RealignerMore.

(** ** More on the translators *)

Module G2PMore.
Import G2P Props MoreProps G2PFacts.
Import GraphemeToPhonemeTranslatorBase.

(** *** Splitting at whitespace and punctuation *)

Lemma split_from_no_space s : forall cur,
  Forall (fun c => isspace c = false) s ->
  split_from cur s
  = match rev cur ++ s with [] => [] | piece => [piece] end.
Proof.
  induction s as [|c s IH]; intros cur Hs.
  - simpl. rewrite app_nil_r. destruct cur as [|c cur]; [done|].
    simpl. by destruct (rev cur ++ [c]) eqn:E; [destruct (rev cur)|].
  - apply Forall_cons in Hs as [Hc Hs]. simpl. rewrite Hc, IH by done.
    simpl. by rewrite <- app_assoc.
Qed.

Lemma split_from_space x sp rest : forall cur,
  isspace sp = true ->
  split_from cur (x ++ sp :: rest) = split_from cur x ++ split_from [] rest.
Proof.
  induction x as [|c x IH]; intros cur Hsp; simpl.
  - rewrite Hsp. by destruct cur.
  - destruct (isspace c); [|by apply IH].
    destruct cur; by rewrite IH.
Qed.

Lemma split_blank s : Forall (fun c => isspace c = true) s -> split s = [].
Proof.
  unfold split. induction 1 as [|c s Hc _ IH]; [done|].
  simpl. by rewrite Hc.
Qed.

Lemma is_punctuation_printable c :
  is_punctuation c = true -> (33 <= c <= 126)%N.
Proof.
  unfold is_punctuation.
  let p := eval vm_compute in punctuation in change punctuation with p.
  simpl. rewrite !orb_true_iff, !andb_true_iff, !N.eqb_eq, !N.leb_le. lia.
Qed.

Lemma printable_not_space c : (33 <= c <= 126)%N -> isspace c = false.
Proof.
  intros Hc. apply not_true_iff_false. unfold isspace.
  rewrite !orb_true_iff, !andb_true_iff, !N.eqb_eq, !N.leb_le. lia.
Qed.

Lemma punctuation_not_space c : is_punctuation c = true -> isspace c = false.
Proof. intros H. by apply printable_not_space, is_punctuation_printable. Qed.

Lemma space_not_punctuation c : isspace c = true -> is_punctuation c = false.
Proof.
  intros Hs. destruct (is_punctuation c) eqn:Hp; [|done].
  apply punctuation_not_space in Hp. congruence.
Qed.

Lemma space_punctuation_id s :
  Forall (fun c => is_punctuation c = false) s -> space_punctuation s = s.
Proof.
  unfold space_punctuation. induction 1 as [|c s Hc _ IH]; [done|].
  simpl. by rewrite Hc, IH.
Qed.

Section G2PPhones.
Variable translate : str -> LangID -> Alphabet -> PhoneSeq.
Variable lang : LangID.
Variable alphabet : Alphabet.

Local Abbreviation phones_of_symbol s :=
  (g2p_phones translate (word_with_symbol s) lang alphabet).

(** X11. A symbol with no punctuation and no whitespace in it (braces,
    brackets and the backslash count as neither) is translated by one
    call on the symbol itself. *)
Theorem g2p_phones_plain_symbol word :
  symbol word <> [] ->
  Forall is_letter (symbol word) ->
  g2p_phones translate word lang alphabet
  = translate (symbol word) lang alphabet.
Proof.
  intros Hne Hall. unfold g2p_phones.
  rewrite space_punctuation_id
    by (eapply Forall_impl; [exact Hall|by intros c [? ?]]).
  unfold split. rewrite split_from_no_space
    by (eapply Forall_impl; [exact Hall|by intros c [? ?]]).
  simpl. destruct (symbol word); [done|]. simpl. by rewrite app_nil_r.
Qed.

(** X12. A punctuation character cuts the symbol in two: the phones are
    those of what comes before it, those of the character by itself,
    and those of what comes after it. *)
Theorem g2p_phones_punctuation_splits word before c after :
  symbol word = before ++ c :: after ->
  is_punctuation c = true ->
  g2p_phones translate word lang alphabet
  = phones_of_symbol before
    ++ translate [c] lang alphabet
    ++ phones_of_symbol after.
Proof.
  intros Hsym Hc. unfold g2p_phones. rewrite Hsym. simpl.
  unfold space_punctuation. rewrite flat_map_app. simpl. rewrite Hc.
  fold (space_punctuation before). fold (space_punctuation after).
  unfold split. simpl. rewrite split_from_space by done.
  simpl. rewrite (punctuation_not_space c Hc). simpl.
  by rewrite map_app, concat_app.
Qed.

(** X13. A Word whose symbol is empty or blank gets no phones, and no
    translator is asked. *)
Theorem g2p_phones_blank_symbol word :
  Forall (fun c => isspace c = true) (symbol word) ->
  g2p_phones translate word lang alphabet = [].
Proof.
  intros Hall. unfold g2p_phones.
  rewrite space_punctuation_id
    by (eapply Forall_impl; [exact Hall|apply space_not_punctuation]).
  by rewrite split_blank.
Qed.

End G2PPhones.

Lemma g2p_phones_plain_symbol_witness :
  g2p_phones echo_translate (word_with_symbol (lit "{a}")) (lit "is-IS") ipa
  = [lit "{a}"].
Proof.
  apply (g2p_phones_plain_symbol echo_translate (lit "is-IS") ipa
           (word_with_symbol (lit "{a}"))).
  - discriminate.
  - repeat constructor.
Defined.

Lemma g2p_phones_punctuation_splits_witness :
  g2p_phones echo_translate (word_with_symbol (lit "e.g")) (lit "is-IS") ipa
  = g2p_phones echo_translate (word_with_symbol (lit "e")) (lit "is-IS") ipa
    ++ [lit "."]
    ++ g2p_phones echo_translate (word_with_symbol (lit "g")) (lit "is-IS") ipa.
Proof.
  apply (g2p_phones_punctuation_splits echo_translate (lit "is-IS") ipa
           (word_with_symbol (lit "e.g")) (lit "e") 46%N (lit "g")).
  - reflexivity.
  - reflexivity.
Defined.

Lemma g2p_phones_blank_symbol_witness :
  g2p_phones echo_translate (word_with_symbol (lit "  ")) (lit "is-IS") ipa
  = [].
Proof.
  apply (g2p_phones_blank_symbol echo_translate (lit "is-IS") ipa
           (word_with_symbol (lit "  "))).
  repeat constructor.
Defined.

(** *** [translate_words] over a heap *)

Section TranslateWordsMore.
Variable translate : str -> LangID -> Alphabet -> PhoneSeq.
Variable is_spoken : Word -> bool.
Variable lang : LangID.
Variable alphabet : Alphabet.

Local Abbreviation run h words :=
  (translate_words translate is_spoken h words lang alphabet).

Lemma translate_words_plain_run words : forall (h : heap),
  alphabet <> x_sampa_syll_stress ->
  Forall (fun r => r ∈ dom h) words ->
  snd (run h words) = words /\ dom (fst (run h words)) = dom h.
Proof.
  induction words as [|a words IH]; intros h Ha Hall; [done|].
  apply Forall_cons in Hall as [Hin Hall].
  apply elem_of_dom in Hin as Hword. destruct Hword as [word Hword].
  simpl. unfold translate_words_step. rewrite Hword.
  rewrite (bool_decide_eq_false_2 (alphabet = x_sampa_syll_stress)) by done.
  rewrite andb_false_r.
  set (h1 := if should_translate word then _ else h).
  assert (Hdom : dom h1 = dom h).
  { subst h1. destruct (should_translate word); [|done].
    rewrite dom_insert_L. apply subseteq_union_1_L.
    by apply singleton_subseteq_l. }
  destruct (IH h1 Ha) as [Hout Hd]; [by rewrite Hdom|].
  destruct (run h1 words) as [h2 out2]. simpl in *.
  split; [by rewrite Hout|by rewrite Hd].
Qed.

(** X14. For an alphabet other than the stress one, [translate_words]
    yields the input references and nothing else, and allocates no
    Word. *)
Theorem translate_words_no_marker (h : heap) words :
  alphabet <> x_sampa_syll_stress ->
  Forall (fun r => r ∈ dom h) words ->
  snd (translate_words translate is_spoken h words lang alphabet) = words
  /\ dom (fst (translate_words translate is_spoken h words lang alphabet))
     = dom h.
Proof. apply translate_words_plain_run. Qed.

(** X15. Translating the same Words a second time leaves every Word of the
    heap as the first pass left it. *)
Theorem translate_words_twice (h : heap) words r :
  Forall (fun r => r ∈ dom h) words ->
  r ∈ dom h ->
  fst (translate_words translate is_spoken
         (fst (translate_words translate is_spoken h words lang alphabet))
         words lang alphabet) !! r
  = fst (translate_words translate is_spoken h words lang alphabet) !! r.
Proof.
  intros Hall [w Hw]%elem_of_dom.
  destruct (translate_words_run translate is_spoken lang alphabet
              words h (dom h)) as [_ H1]; [done|done|].
  assert (Hsub : dom h ⊆ dom (fst (run h words))).
  { intros r' [w' Hw']%elem_of_dom. apply elem_of_dom.
    rewrite (H1 _ _ Hw'). eauto. }
  destruct (translate_words_run translate is_spoken lang alphabet
              words (fst (run h words)) (dom h)) as [_ H2]; [done|done|].
  rewrite (H2 _ _ (H1 _ _ Hw)), (H1 _ _ Hw). f_equal.
  destruct (decide (r ∈ words)) as [Hin|Hin]; [|reflexivity].
  destruct (should_translate w) eqn:Hst.
  - destruct (should_translate (set_phone_sequence w _)); reflexivity.
  - rewrite Hst. reflexivity.
Qed.

Lemma step_marker (h : heap) r word m :
  h !! r = Some word ->
  m ∈ snd (translate_words_step translate is_spoken lang alphabet h r) ->
  m <> r ->
  alphabet = x_sampa_syll_stress
  /\ (m ∉ dom h)
  /\ fst (translate_words_step translate is_spoken lang alphabet h r) !! m
     = Some (mkWord [] [] [lit "."] 0 0).
Proof.
  intros Hr. unfold translate_words_step. rewrite Hr.
  set (h' := if should_translate word then _ else h).
  assert (Hsub : forall r0 w, h !! r0 = Some w -> is_Some (h' !! r0)).
  { intros r0 w H0. subst h'. destruct (should_translate word); [|eauto].
    destruct (decide (r0 = r)) as [->|Hne].
    - rewrite lookup_insert_eq. eauto.
    - rewrite lookup_insert_ne by done. eauto. }
  destruct (is_spoken _ && bool_decide _) eqn:E; simpl.
  - intros [->|[->|[]%elem_of_nil]%elem_of_cons]%elem_of_cons Hne; [done|].
    apply andb_true_iff in E as [_ Ha%bool_decide_eq_true].
    split; [done|]. split; [|apply lookup_insert_eq].
    intros [w Hw]%elem_of_dom. destruct (Hsub _ _ Hw) as [w' Hw'].
    pose proof (is_fresh (dom h')) as Hfresh. apply Hfresh.
    apply elem_of_dom. eauto.
  - by intros [->|[]%elem_of_nil]%elem_of_cons Hne.
Qed.

Lemma translate_words_marker_run words : forall (h : heap) (D : gset nat) m,
  D ⊆ dom h ->
  Forall (fun r => r ∈ D) words ->
  m ∈ snd (run h words) ->
  m ∉ D ->
  alphabet = x_sampa_syll_stress
  /\ fst (run h words) !! m = Some (mkWord [] [] [lit "."] 0 0).
Proof.
  induction words as [|a words IH]; intros h D m HD Hall Hin Hm.
  { by apply elem_of_nil in Hin. }
  apply Forall_cons in Hall as [Ha Hall].
  assert (exists word, h !! a = Some word) as [word Hword].
  { apply elem_of_dom. by apply HD. }
  destruct (step_heap translate is_spoken lang alphabet h a word Hword)
    as [Hheap _].
  pose proof (step_marker h a word m Hword) as Hmark.
  simpl in Hin |- *.
  destruct (translate_words_step translate is_spoken lang alphabet h a)
    as [h1 out1] eqn:Hs. simpl in Hheap, Hmark.
  assert (HD1 : D ⊆ dom h1).
  { intros r [w Hr]%HD%elem_of_dom. apply elem_of_dom.
    rewrite (Hheap _ _ Hr). eauto. }
  pose proof (translate_words_run translate is_spoken lang alphabet
                words h1 D HD1 Hall) as [_ Hrun].
  specialize (IH h1 D m HD1 Hall).
  simpl. destruct (run h1 words) as [h2 out2] eqn:Hr2. simpl in *.
  apply elem_of_app in Hin as [Hin|Hin]; [|by apply IH].
  destruct Hmark as (Halpha & _ & Hm1); [done|by intros ->|].
  split; [done|]. rewrite (Hrun _ _ Hm1).
  rewrite decide_False; [done|].
  intros Hmw. apply Hm. rewrite Forall_forall in Hall. by apply Hall.
Qed.

(** X16. A reference [translate_words] yields that is not one of the input
    Words is a Word made for the occasion, whose phone sequence is the
    syllable mark [.] and whose other fields are empty; there is none
    unless the alphabet is the stress one. *)
Theorem translate_words_markers (h : heap) words m :
  Forall (fun r => r ∈ dom h) words ->
  m ∈ snd (translate_words translate is_spoken h words lang alphabet) ->
  m ∉ dom h ->
  alphabet = x_sampa_syll_stress
  /\ fst (translate_words translate is_spoken h words lang alphabet) !! m
     = Some (mkWord [] [] [lit "."] 0 0).
Proof. intros. by eapply translate_words_marker_run. Qed.

End TranslateWordsMore.

Lemma translate_words_markers_witness :
  x_sampa_syll_stress = x_sampa_syll_stress
  /\ fst (translate_words echo_translate has_symbol example_heap [0; 1; 2]
            (lit "is-IS") x_sampa_syll_stress) !! 3
     = Some (mkWord [] [] [lit "."] 0 0).
Proof.
  apply (translate_words_markers echo_translate has_symbol (lit "is-IS")
           x_sampa_syll_stress example_heap [0; 1; 2] 3).
  - repeat constructor; apply elem_of_dom; eexists; reflexivity.
  - match goal with |- ?P => apply (@bool_decide_unpack P _) end.
    vm_compute. exact I.
  - match goal with |- ?P => apply (@bool_decide_unpack P _) end.
    vm_compute. exact I.
Defined.

Lemma translate_words_no_marker_witness :
  snd (translate_words echo_translate has_symbol example_heap [0; 1; 2]
         (lit "is-IS") ipa)
  = [0; 1; 2]
  /\ dom (fst (translate_words echo_translate has_symbol example_heap
                 [0; 1; 2] (lit "is-IS") ipa))
     = dom example_heap.
Proof.
  apply (translate_words_no_marker echo_translate has_symbol (lit "is-IS")
           ipa example_heap [0; 1; 2]).
  - discriminate.
  - repeat constructor; apply elem_of_dom; eexists; reflexivity.
Defined.

Lemma translate_words_twice_witness :
  fst (translate_words echo_translate has_symbol
         (fst (translate_words echo_translate has_symbol example_heap
                 [0; 1; 2] (lit "is-IS") x_sampa_syll_stress))
         [0; 1; 2] (lit "is-IS") x_sampa_syll_stress) !! 0
  = fst (translate_words echo_translate has_symbol example_heap [0; 1; 2]
           (lit "is-IS") x_sampa_syll_stress) !! 0.
Proof.
  apply (translate_words_twice echo_translate has_symbol (lit "is-IS")
           x_sampa_syll_stress example_heap [0; 1; 2] 0).
  - repeat constructor; apply elem_of_dom; eexists; reflexivity.
  - apply elem_of_dom; eexists; reflexivity.
Defined.

(** *** Chains of chains *)

Lemma first_non_empty_app results results' :
  first_non_empty (results ++ results')
  = if truthy (first_non_empty results)
    then first_non_empty results
    else first_non_empty results'.
Proof.
  induction results as [|phone results IH]; [done|].
  simpl. rewrite !first_non_empty_cons.
  destruct (truthy phone) eqn:Hp; [by rewrite Hp|done].
Qed.

(** X17. A chain is a translator, and a chain of two chains answers as the
    one chain of their translators in order. *)
Theorem composed_translate_nested translators translators' text lang alphabet :
  ComposedTranslator.translate
    (chain_of [as_translator (chain_of translators);
               as_translator (chain_of translators')])
    text lang alphabet
  = ComposedTranslator.translate (chain_of (translators ++ translators'))
      text lang alphabet.
Proof.
  unfold ComposedTranslator.translate. simpl.
  unfold ComposedTranslator.translate. simpl.
  rewrite !translate_loop_first by done.
  rewrite map_app, first_non_empty_app.
  destruct (first_non_empty (map _ translators)) eqn:E1; simpl; [|done].
  by destruct (first_non_empty (map _ translators')).
Qed.

(** *** The lexicon and lower case *)

Section LexiconMore.
Import LexiconGraphemeToPhonemeTranslator.
Variable lower : str -> str.
Variable convert_ipa_to_xsampa : PhoneSeq -> PhoneSeq.
Variable convert_xsampa_to_xsampa_with_stress : PhoneSeq -> str -> PhoneSeq.

Local Abbreviation lexicon_translate :=
  (_translate lower convert_ipa_to_xsampa convert_xsampa_to_xsampa_with_stress).

(** X18. A word the lexicon does not hold as written is translated as its
    lower-case form is, for the alphabets [ipa] and [x-sampa]. *)
Theorem lexicon_translate_as_lowercase lexicon w lang alphabet :
  lower (lower w) = lower w ->
  get lexicon w [] = [] ->
  alphabet <> x_sampa_syll_stress ->
  _translate lower convert_ipa_to_xsampa convert_xsampa_to_xsampa_with_stress
    lexicon w lang alphabet
  = _translate lower convert_ipa_to_xsampa convert_xsampa_to_xsampa_with_stress
      lexicon (lower w) lang alphabet.
Proof.
  intros Hlow Hmiss Ha. unfold _translate. rewrite Hlow, Hmiss. simpl.
  rewrite (bool_decide_eq_false_2 (alphabet = x_sampa_syll_stress)) by done.
  destruct (lexicon_bool lexicon); [|done].
  by destruct (get lexicon (lower w) []).
Qed.

End LexiconMore.

Lemma lexicon_translate_as_lowercase_witness :
  LexiconGraphemeToPhonemeTranslator._translate
    ascii_lower (fun phones => phones) (fun phones _ => phones)
    word_lexicon (lit "WORD") (lit "is-IS") x_sampa
  = LexiconGraphemeToPhonemeTranslator._translate
      ascii_lower (fun phones => phones) (fun phones _ => phones)
      word_lexicon (lit "word") (lit "is-IS") x_sampa.
Proof.
  apply (lexicon_translate_as_lowercase ascii_lower (fun phones => phones)
           (fun phones _ => phones) word_lexicon (lit "WORD") (lit "is-IS")
           x_sampa).
  - reflexivity.
  - reflexivity.
  - discriminate.
Defined.

(** *** The model-backed translator *)

Lemma strip_blank s : Forall (fun c => isspace c = true) s -> strip s = [].
Proof.
  intros Hall. unfold strip.
  assert (lstrip s = []) as ->; [|done].
  induction Hall as [|c s Hc _ IH]; [done|]. simpl. by rewrite Hc.
Qed.

Section IceG2PMore.
Import IceG2PTranslator.
Variable lower : str -> str.
Variable transcribe : Transcriber -> str -> PyError + str.
Variable convert_xsampa_to_ipa : PhoneSeq -> PhoneSeq.

Local Abbreviation ice_translate :=
  (_translate lower transcribe convert_xsampa_to_ipa).

(** X19. A text of punctuation and whitespace only, the empty text
    included, gives no phones; the engine is not called and the
    transcriber is left as it was. *)
Theorem ice_translate_blank transcriber text lang alphabet :
  Forall (fun c => is_punctuation c = true \/ isspace c = true) text ->
  _translate lower transcribe convert_xsampa_to_ipa
    transcriber text lang alphabet
  = (transcriber, inr []).
Proof.
  intros Hall. unfold _translate.
  rewrite bool_decide_eq_true_2; [done|].
  apply strip_blank. unfold remove_punctuation.
  induction Hall as [|c s Hc _ IH]; [constructor|].
  rewrite filter_cons. destruct (decide (is_punctuation c = false)) as [Hp|];
    [|done].
  constructor; [|done]. destruct Hc; congruence.
Qed.

(** X20. The transcriber's syllable symbol after a call is the one before
    it whenever the call returns, and for the stress alphabet also
    when it raises. *)
Theorem ice_translate_keeps_transcriber transcriber text lang alphabet :
  (exists phones,
     snd (_translate lower transcribe convert_xsampa_to_ipa
            transcriber text lang alphabet) = inr phones)
  \/ alphabet = x_sampa_syll_stress ->
  fst (_translate lower transcribe convert_xsampa_to_ipa
         transcriber text lang alphabet) = transcriber.
Proof.
  unfold _translate. destruct transcriber as [sym]. simpl.
  intros [[phones H]| ->].
  - revert H. repeat case_bool_decide; simpl; try done;
      destruct (transcribe _ _); simpl; done.
  - case_bool_decide; [done|]. simpl.
    by destruct (transcribe _ _).
Qed.

End IceG2PMore.

Lemma ice_translate_blank_witness :
  IceG2PTranslator._translate ascii_lower failing_transcribe
    (fun phones => phones) IceG2PTranslator.__init__ (lit " ., ")
    (lit "is-IS") ipa
  = (IceG2PTranslator.__init__, inr []).
Proof.
  apply (ice_translate_blank ascii_lower failing_transcribe
           (fun phones => phones) IceG2PTranslator.__init__ (lit " ., ")
           (lit "is-IS") ipa).
  repeat (constructor; [first [left; reflexivity | right; reflexivity]|]).
  constructor.
Defined.

Lemma ice_translate_keeps_transcriber_witness :
  fst (IceG2PTranslator._translate ascii_lower echo_transcribe
         (fun phones => phones) IceG2PTranslator.__init__ (lit "Hi")
         (lit "is-IS") ipa)
  = IceG2PTranslator.__init__.
Proof.
  apply (ice_translate_keeps_transcriber ascii_lower echo_transcribe
           (fun phones => phones) IceG2PTranslator.__init__ (lit "Hi")
           (lit "is-IS") ipa).
  left. eexists. reflexivity.
Defined.

End G2PMore.

(** ** Embedded phoneme spans *)

Module EmbeddedFacts.
Import G2P Props MoreProps.
Import EmbeddedPhonemeTranslatorBase.

(** *** Strings *)

Lemma replace_absent old new s :
  Forall (fun c => c <> old) s -> replace old new s = s.
Proof.
  unfold replace. induction 1 as [|c s Hc _ IH]; [done|].
  simpl. apply N.eqb_neq in Hc. by rewrite Hc, IH.
Qed.

Lemma replace_app old new s s' :
  replace old new (s ++ s') = replace old new s ++ replace old new s'.
Proof. apply flat_map_app. Qed.

Lemma startswith_other s c :
  Forall (fun x => x <> c) s -> startswith s c = false.
Proof. destruct 1 as [|x s Hx _]; [done|]. simpl. by apply N.eqb_neq. Qed.

Lemma endswith_other s c :
  Forall (fun x => x <> c) s -> endswith s c = false.
Proof.
  intros Hs. unfold endswith. apply startswith_other.
  by apply Forall_rev.
Qed.

Lemma endswith_last s c : endswith (s ++ [c]) c = true.
Proof. unfold endswith. rewrite rev_unit. simpl. apply N.eqb_refl. Qed.

Lemma split_on_no_sep sep w :
  Forall (fun c => c <> sep) w -> split_on sep w = [w].
Proof.
  induction 1 as [|c w Hc _ IH]; [done|].
  simpl. apply N.eqb_neq in Hc. by rewrite Hc, IH.
Qed.

Lemma split_on_app_sep sep w rest :
  Forall (fun c => c <> sep) w ->
  split_on sep (w ++ sep :: rest) = w :: split_on sep rest.
Proof.
  induction 1 as [|c w Hc _ IH]; simpl.
  - by rewrite N.eqb_refl.
  - apply N.eqb_neq in Hc. by rewrite Hc, IH.
Qed.

(** Pieces without a space come back from [" ".join] and
    [split(" ")]. *)
Lemma split_on_join_space pieces :
  pieces <> [] ->
  Forall (Forall (fun c => c <> 32%N)) pieces ->
  split_on 32 (join_space pieces) = pieces.
Proof.
  intros Hne Hall. induction Hall as [|w pieces Hw Hall IH]; [done|].
  destruct pieces as [|w' pieces].
  - simpl. by apply split_on_no_sep.
  - change (join_space (w :: w' :: pieces))
      with (w ++ 32%N :: join_space (w' :: pieces)).
    rewrite split_on_app_sep by done. f_equal. by apply IH.
Qed.

Lemma join_space_snoc pieces w :
  pieces <> [] ->
  join_space (pieces ++ [w]) = join_space pieces ++ 32%N :: w.
Proof.
  intros Hne. induction pieces as [|x pieces IH]; [done|].
  destruct pieces as [|y pieces]; [done|].
  change (join_space ((x :: y :: pieces) ++ [w]))
    with (x ++ 32%N :: join_space ((y :: pieces) ++ [w])).
  rewrite IH by done. simpl. by rewrite <- app_assoc.
Qed.

Lemma join_space_chars (P : N -> Prop) pieces :
  P 32%N -> Forall (Forall P) pieces -> Forall P (join_space pieces).
Proof.
  intros Hsp. induction 1 as [|w pieces Hw Hall IH]; [constructor|].
  destruct pieces as [|w' pieces]; [done|].
  change (join_space (w :: w' :: pieces))
    with (w ++ 32%N :: join_space (w' :: pieces)).
  apply Forall_app. split; [done|]. by constructor.
Qed.

Lemma plain_piece_chars (P : N -> Prop) w :
  (forall c, c ∉ [32; 44; 46; 123; 125]%N -> P c) ->
  plain_piece w -> Forall P w.
Proof. intros HP Hw. eapply Forall_impl; [exact Hw|exact HP]. Qed.

Lemma plain_not c x :
  x ∈ [32; 44; 46; 123; 125]%N -> c ∉ [32; 44; 46; 123; 125]%N -> c <> x.
Proof. intros Hx Hc ->. by apply Hc. Qed.

Local Ltac plain_chars :=
  match goal with
  | H : plain_piece ?w |- Forall _ ?w =>
      apply (plain_piece_chars _ w); [|exact H];
      let c := fresh "c" in let Hc := fresh "Hc" in
      intros c Hc; repeat split; apply plain_not; try exact Hc;
      repeat first [apply list_elem_of_here | apply list_elem_of_further]
  end.

Section Scanner.
Variable SHORT_PAUSE : str.
Variable align : str -> str.
Variable convert_ipa_to_xsampa : PhoneSeq -> PhoneSeq.
Variable convert_xsampa_to_xsampa_with_stress : PhoneSeq -> str -> PhoneSeq.

Local Abbreviation scan :=
  (process_loop SHORT_PAUSE align convert_ipa_to_xsampa
     convert_xsampa_to_xsampa_with_stress).
Local Abbreviation embedded_translate :=
  (translate SHORT_PAUSE align convert_ipa_to_xsampa
     convert_xsampa_to_xsampa_with_stress).
Local Abbreviation pause alphabet :=
  (if bool_decide (alphabet = x_sampa_syll_stress)
   then lit "." else SHORT_PAUSE).

(** *** The scanner on pieces *)

Lemma scan_plain_piece translate_fn alphabet acc w rest :
  plain_piece w ->
  scan translate_fn alphabet acc false (w :: rest)
  = scan translate_fn alphabet (acc ++ translate_fn w) false rest.
Proof.
  intros Hw. simpl.
  assert (startswith w open_brace = false) as ->
    by (apply startswith_other; plain_chars).
  simpl. rewrite bool_decide_eq_false_2; [done|].
  intros [->|[->|[]%elem_of_nil]%elem_of_cons]%elem_of_cons.
  - apply Forall_cons in Hw as [Hc _]. apply Hc.
    repeat first [apply list_elem_of_here | apply list_elem_of_further].
  - apply Forall_cons in Hw as [Hc _]. apply Hc.
    repeat first [apply list_elem_of_here | apply list_elem_of_further].
Qed.

Lemma scan_plain_pieces translate_fn alphabet ws : forall acc rest,
  Forall plain_piece ws ->
  scan translate_fn alphabet acc false (ws ++ rest)
  = scan translate_fn alphabet (acc ++ concat (map translate_fn ws))
      false rest.
Proof.
  induction ws as [|w ws IH]; intros acc rest Hall.
  - simpl. by rewrite app_nil_r.
  - apply Forall_cons in Hall as [Hw Hall].
    change ((w :: ws) ++ rest) with (w :: ws ++ rest).
    rewrite scan_plain_piece, IH by done. simpl. by rewrite <- app_assoc.
Qed.

Lemma scan_pause translate_fn alphabet acc rest :
  scan translate_fn alphabet acc false (lit "." :: rest)
  = scan translate_fn alphabet (acc ++ [pause alphabet]) false rest
  /\ scan translate_fn alphabet acc false (lit "," :: rest)
     = scan translate_fn alphabet (acc ++ [pause alphabet]) false rest.
Proof. split; reflexivity. Qed.

Lemma scan_open_ipa translate_fn pieces : forall acc,
  Forall (fun w => endswith w close_brace = false) pieces ->
  scan translate_fn ipa acc true pieces = inr (acc ++ pieces).
Proof.
  induction pieces as [|w pieces IH]; intros acc Hall.
  - simpl. by rewrite app_nil_r.
  - apply Forall_cons in Hall as [Hw Hall]. simpl. rewrite Hw. simpl.
    rewrite IH by done. by rewrite <- app_assoc.
Qed.

Lemma scan_span_ipa translate_fn acc p phones q rest :
  plain_piece p -> Forall plain_piece phones -> plain_piece q ->
  scan translate_fn ipa acc false (span_pieces p phones q ++ rest)
  = scan translate_fn ipa (acc ++ p :: phones ++ [q]) false rest.
Proof.
  intros Hp Hphones Hq. unfold span_pieces. simpl.
  assert (endswith (open_brace :: p) close_brace = false) as ->.
  { apply endswith_other. constructor; [done|plain_chars]. }
  rewrite replace_absent by plain_chars.
  replace (acc ++ p :: phones ++ [q]) with ((acc ++ [p]) ++ phones ++ [q])
    by (by rewrite <- app_assoc).
  generalize (acc ++ [p]). clear acc.
  induction Hphones as [|w phones Hw _ IH]; intros acc; simpl.
  - rewrite endswith_last. simpl.
    rewrite replace_app, replace_absent by plain_chars.
    simpl. by rewrite app_nil_r.
  - assert (endswith w close_brace = false) as ->
      by (apply endswith_other; plain_chars).
    simpl. rewrite IH. by rewrite <- app_assoc.
Qed.

(** X21. For the alphabet [ipa], a span that is opened and never closed
    takes every piece after it as a phone, as it stands: the
    translator is not asked about any of them. *)
Theorem process_embedded_unterminated translate_fn acc w pieces :
  startswith w open_brace = true ->
  endswith w close_brace = false ->
  Forall (fun w' => endswith w' close_brace = false) pieces ->
  scan translate_fn ipa acc false (w :: pieces)
  = inr (acc ++ replace open_brace [] w :: pieces).
Proof.
  intros Hopen Hclose Hall. simpl. rewrite Hopen, Hclose. simpl.
  rewrite scan_open_ipa by done. by rewrite <- app_assoc.
Qed.

(** *** The translator on texts *)

(** X22. For the alphabet [ipa], a text of words, then a brace span of
    phones, then a full stop gives the phones of each word from the
    wrapped translator, the phones of the span as they stand, and a
    short pause. *)
Theorem embedded_translate_words_span_stop _translate lang ws p phones q :
  Forall plain_piece ws ->
  plain_piece p -> Forall plain_piece phones -> plain_piece q ->
  embedded_translate _translate
    (join_space (ws ++ span_pieces p phones q) ++ lit ".") lang ipa
  = inr (concat (map (fun w => _translate w lang ipa) ws)
         ++ p :: phones ++ [q] ++ [SHORT_PAUSE]).
Proof.
  intros Hws Hp Hphones Hq.
  set (pieces := ws ++ span_pieces p phones q).
  assert (Hne : pieces <> []).
  { subst pieces. unfold span_pieces. by destruct ws. }
  assert (Hchars : forall P : N -> Prop,
    P 123%N -> P 125%N ->
    (forall c, c ∉ [32; 44; 46; 123; 125]%N -> P c) ->
    Forall (Forall P) pieces).
  { intros P Ho Hc HP. subst pieces. apply Forall_app. split.
    - eapply Forall_impl; [exact Hws|]. intros w. by apply plain_piece_chars.
    - unfold span_pieces. constructor.
      { constructor; [done|by apply plain_piece_chars]. }
      apply Forall_app. split.
      + eapply Forall_impl; [exact Hphones|].
        intros w. by apply plain_piece_chars.
      + constructor; [|constructor]. apply Forall_app. split;
          [by apply plain_piece_chars|by constructor]. }
  unfold translate, _process_embedded.
  rewrite !replace_app.
  rewrite (replace_absent 44)
    by (apply join_space_chars; [done|apply Hchars; try done;
        intros c Hc; apply plain_not; [|exact Hc];
        repeat first [apply list_elem_of_here | apply list_elem_of_further]]).
  rewrite (replace_absent 46 _ (join_space pieces))
    by (apply join_space_chars; [done|apply Hchars; try done;
        intros c Hc; apply plain_not; [|exact Hc];
        repeat first [apply list_elem_of_here | apply list_elem_of_further]]).
  change (replace 46 (lit " .") (replace 44 (lit " ,") (lit ".")))
    with (32%N :: lit ".").
  rewrite <- join_space_snoc by done.
  rewrite split_on_join_space; first last.
  { apply Forall_app. split; [|by repeat constructor].
    apply Hchars; try done. intros c Hc. apply plain_not; [|exact Hc].
    repeat first [apply list_elem_of_here | apply list_elem_of_further]. }
  { by destruct pieces. }
  subst pieces. rewrite <- app_assoc.
  rewrite scan_plain_pieces by done.
  rewrite scan_span_ipa by done.
  simpl. f_equal. rewrite <- app_assoc. simpl. by rewrite <- app_assoc.
Qed.

(** X23. A comma makes a pause when a space follows it; a comma with a
    word right after it makes none, and goes to the wrapped
    translator at the head of that word. *)
Theorem embedded_translate_comma _translate lang alphabet a b :
  plain_piece a -> plain_piece b -> b <> [] ->
  embedded_translate _translate (a ++ lit ", " ++ b) lang alphabet
  = inr (_translate a lang alphabet ++ [pause alphabet]
         ++ _translate b lang alphabet)
  /\ embedded_translate _translate (a ++ lit "," ++ b) lang alphabet
     = inr (_translate a lang alphabet
            ++ _translate (lit "," ++ b) lang alphabet).
Proof.
  intros Ha Hb Hne.
  assert (Ha44 : Forall (fun c => c <> 44%N) a) by plain_chars.
  assert (Ha46 : Forall (fun c => c <> 46%N) a) by plain_chars.
  assert (Ha32 : Forall (fun c => c <> 32%N) a) by plain_chars.
  assert (Hb44 : Forall (fun c => c <> 44%N) b) by plain_chars.
  assert (Hb46 : Forall (fun c => c <> 46%N) b) by plain_chars.
  assert (Hb32 : Forall (fun c => c <> 32%N) b) by plain_chars.
  assert (Hb123 : Forall (fun c => c <> 123%N) b) by plain_chars.
  change (lit "," ++ b) with (44%N :: b).
  unfold translate, _process_embedded. split.
  - rewrite !replace_app.
    rewrite (replace_absent 44 _ a), (replace_absent 46 _ a),
      (replace_absent 44 _ b), (replace_absent 46 _ b) by done.
    change (replace 46 (lit " .") (replace 44 (lit " ,") (lit ", ")))
      with (32%N :: 44%N :: [32%N]).
    cbn [app]. rewrite split_on_app_sep by done.
    change (split_on 32 (44%N :: 32%N :: b))
      with ([44%N] :: split_on 32 b).
    rewrite split_on_no_sep by done.
    rewrite scan_plain_piece by done.
    rewrite (proj2 (scan_pause _ _ _ _)).
    rewrite scan_plain_piece by done. simpl. by rewrite <- !app_assoc.
  - change (a ++ 44%N :: b) with (a ++ [44%N] ++ b).
    rewrite !replace_app.
    rewrite (replace_absent 44 _ a), (replace_absent 46 _ a),
      (replace_absent 44 _ b), (replace_absent 46 _ b) by done.
    change (replace 46 (lit " .") (replace 44 (lit " ,") [44%N]))
      with (32%N :: [44%N]).
    cbn [app]. rewrite split_on_app_sep by done.
    rewrite split_on_no_sep by (by constructor).
    rewrite scan_plain_piece by done. cbn [scan].
    change (startswith (44%N :: b) open_brace) with false. cbn [andb].
    rewrite bool_decide_eq_false_2.
    + reflexivity.
    + destruct b as [|c b]; [done|].
      intros [[=]|[[=]|[]%elem_of_nil]%elem_of_cons]%elem_of_cons.
Qed.

End Scanner.

Local Ltac decide_plain :=
  unfold plain_piece;
  match goal with |- ?P => apply (@bool_decide_unpack P _) end;
  vm_compute; exact I.

Lemma process_embedded_unterminated_witness :
  process_loop (lit "sp") (fun s => s) (fun p => p) (fun p _ => p)
    (fun w => [w]) ipa [] false [lit "{h"; lit "a"; lit "n"]
  = inr [lit "h"; lit "a"; lit "n"].
Proof.
  apply (process_embedded_unterminated (lit "sp") (fun s => s) (fun p => p)
           (fun p _ => p) (fun w => [w]) [] (lit "{h") [lit "a"; lit "n"]).
  - reflexivity.
  - reflexivity.
  - repeat constructor.
Defined.

Lemma embedded_translate_words_span_stop_witness :
  translate (lit "sp") (fun s => s) (fun p => p) (fun p _ => p) echo_translate
    (lit "Hann sag {h a n t I r}.") (lit "is-IS") ipa
  = inr [lit "Hann"; lit "sag"; lit "h"; lit "a"; lit "n"; lit "t"; lit "I";
         lit "r"; lit "sp"].
Proof.
  apply (embedded_translate_words_span_stop (lit "sp") (fun s => s)
           (fun p => p) (fun p _ => p) echo_translate (lit "is-IS")
           [lit "Hann"; lit "sag"] (lit "h")
           [lit "a"; lit "n"; lit "t"; lit "I"] (lit "r")).
  - decide_plain.
  - decide_plain.
  - decide_plain.
  - decide_plain.
Defined.

Lemma embedded_translate_comma_witness :
  translate (lit "sp") (fun s => s) (fun p => p) (fun p _ => p) echo_translate
    (lit "a, b") (lit "is-IS") ipa
  = inr [lit "a"; lit "sp"; lit "b"]
  /\ translate (lit "sp") (fun s => s) (fun p => p) (fun p _ => p)
       echo_translate (lit "a,b") (lit "is-IS") ipa
     = inr [lit "a"; lit ",b"].
Proof.
  apply (embedded_translate_comma (lit "sp") (fun s => s) (fun p => p)
           (fun p _ => p) echo_translate (lit "is-IS") ipa (lit "a") (lit "b")).
  - decide_plain.
  - decide_plain.
  - discriminate.
Defined.

End EmbeddedFacts.

(** ** Voices and the speech route *)

Module VoicesFacts.
Import Props MoreProps Voices.

Lemma supported_iff output_format sample_rate :
  _is_output_format_supported output_format sample_rate = true
  <-> (output_format = lit "pcm" /\ sample_rate ∈ _PCM_SAMPLE_RATES)
      \/ (output_format = lit "ogg_vorbis"
          /\ sample_rate ∈ _OGG_VORBIS_SAMPLE_RATES)
      \/ (output_format = lit "mp3" /\ sample_rate ∈ _MP3_SAMPLE_RATES).
Proof.
  unfold _is_output_format_supported, SUPPORTED_OUTPUT_FORMATS,
    OutputFormat.eq_tuple.
  cbn [existsb OutputFormat.output_format OutputFormat.supported_sample_rates
       fst snd].
  rewrite !orb_true_iff, !andb_true_iff, !bool_decide_eq_true.
  split.
  - intros [[<- ?]|[[<- ?]|[[<- ?]|[[_ H]|H]]]].
    + left. by split.
    + right. left. by split.
    + right. right. by split.
    + by apply elem_of_nil in H.
    + discriminate H.
  - intros [[-> ?]|[[-> ?]|[-> ?]]].
    + left. by split.
    + right. left. by split.
    + right. right. left. by split.
Qed.

(** X24. The pairs of output format and sample rate the voices accept are
    [pcm] at 8000, 16000 or 22050, and [ogg_vorbis] and [mp3] at
    those rates or 24000; [json] is accepted at no rate. *)
Theorem supported_output_formats output_format sample_rate :
  _is_output_format_supported output_format sample_rate
  = bool_decide
      ((output_format = lit "pcm" /\ sample_rate ∈ _PCM_SAMPLE_RATES)
       \/ (output_format = lit "ogg_vorbis"
           /\ sample_rate ∈ _OGG_VORBIS_SAMPLE_RATES)
       \/ (output_format = lit "mp3" /\ sample_rate ∈ _MP3_SAMPLE_RATES))
  /\ _is_output_format_supported (lit "json") sample_rate = false.
Proof.
  split.
  - destruct (_is_output_format_supported _ _) eqn:E; symmetry.
    + apply bool_decide_eq_true_2. by apply supported_iff.
    + apply bool_decide_eq_false_2. intros H%supported_iff. congruence.
  - apply not_true_iff_false.
    intros [[[=] _]|[[[=] _]|[[=] _]]]%supported_iff.
Qed.

Lemma kwargs_get_present (kwargs : kwargs_t) key v :
  kwargs_get kwargs key [] = v -> v <> [] -> kwargs !! key = Some v.
Proof.
  unfold kwargs_get. destruct (kwargs !! key); [congruence|].
  intros <- H. by destruct H.
Qed.

Lemma rate_in_mp3 rate :
  rate ∈ _PCM_SAMPLE_RATES \/ rate ∈ _OGG_VORBIS_SAMPLE_RATES
  \/ rate ∈ _MP3_SAMPLE_RATES ->
  rate ∈ _MP3_SAMPLE_RATES /\ rate <> [].
Proof.
  unfold _PCM_SAMPLE_RATES, _OGG_VORBIS_SAMPLE_RATES, _MP3_SAMPLE_RATES.
  rewrite !elem_of_cons, !elem_of_nil.
  intros H. split; [tauto|]. intros ->.
  repeat destruct H as [H|H]; try discriminate H; try done.
Qed.

Section Espnet2VoiceFacts.
Variable A : Type.
Variable pipeline : str -> bool -> Z -> str -> bool -> A.
Variable int : str -> option Z.
Variable USE_FFMPEG : bool.

Local Abbreviation voice_synthesize :=
  (Espnet2Voice.synthesize A pipeline int USE_FFMPEG).

(** X25. With [int] reading the four sample rates, [Espnet2Voice.synthesize]
    raises for the requests [_is_valid] refuses, always a
    [ValueError], and for no other: a request that passes has its
    output format and sample rate, the format is not [json], and the
    backend runs with them. *)
Theorem espnet2_voice_synthesize voice_id text ssml kwargs :
  Forall (fun rate => is_Some (int rate)) _MP3_SAMPLE_RATES ->
  match voice_synthesize voice_id text ssml kwargs with
  | inl e =>
      e = VoiceValueError /\ Espnet2Voice._is_valid voice_id kwargs = false
  | inr audio =>
      Espnet2Voice._is_valid voice_id kwargs = true
      /\ exists output_format rate sample_rate,
           kwargs !! lit "OutputFormat" = Some output_format
           /\ kwargs !! lit "SampleRate" = Some rate
           /\ kwargs !! lit "VoiceId" = Some voice_id
           /\ int rate = Some sample_rate
           /\ output_format <> lit "json"
           /\ audio = pipeline text ssml sample_rate output_format USE_FFMPEG
  end.
Proof.
  intros Hint. unfold Espnet2Voice.synthesize, Espnet2Voice._synthesize.
  destruct (Espnet2Voice._is_valid voice_id kwargs) eqn:Hvalid; [|done].
  simpl. unfold Espnet2Voice._is_valid in Hvalid.
  destruct (_is_output_format_supported _ _) eqn:Hsup; [|done].
  destruct (kwargs !! lit "VoiceId") as [v|] eqn:Hv; [|done].
  apply bool_decide_eq_true in Hvalid as ->.
  apply supported_iff in Hsup.
  assert (Hrate : kwargs_get kwargs (lit "SampleRate") [] ∈ _MP3_SAMPLE_RATES
                  /\ kwargs_get kwargs (lit "SampleRate") [] <> [])
    by (apply rate_in_mp3; tauto).
  destruct Hrate as [Hrate Hrne].
  assert (Hfmt : kwargs_get kwargs (lit "OutputFormat") [] <> []
                 /\ kwargs_get kwargs (lit "OutputFormat") [] <> lit "json").
  { destruct Hsup as [[-> _]|[[-> _]|[-> _]]]; by split. }
  destruct Hfmt as [Hfne Hfj].
  rewrite (kwargs_get_present kwargs _ _ eq_refl Hrne).
  rewrite Forall_forall in Hint. destruct (Hint _ Hrate) as [z Hz].
  rewrite Hz. rewrite (kwargs_get_present kwargs _ _ eq_refl Hfne).
  unfold Espnet2Synthesizer.synthesize.
  rewrite bool_decide_eq_false_2 by done.
  split; [done|]. eexists _, _, _. by repeat split.
Qed.

End Espnet2VoiceFacts.

Lemma espnet2_voice_synthesize_witness :
  match Espnet2Voice.synthesize _ recording_pipeline int_of_digits true
          (lit "Other") (lit "Hi") false (request "pcm" "16000" "Other") with
  | inl e =>
      e = VoiceValueError
      /\ Espnet2Voice._is_valid (lit "Other") (request "pcm" "16000" "Other")
         = false
  | inr audio =>
      Espnet2Voice._is_valid (lit "Other") (request "pcm" "16000" "Other")
      = true
      /\ exists output_format rate sample_rate,
           request "pcm" "16000" "Other" !! lit "OutputFormat"
           = Some output_format
           /\ request "pcm" "16000" "Other" !! lit "SampleRate" = Some rate
           /\ request "pcm" "16000" "Other" !! lit "VoiceId"
              = Some (lit "Other")
           /\ int_of_digits rate = Some sample_rate
           /\ output_format <> lit "json"
           /\ audio
              = recording_pipeline (lit "Hi") false sample_rate output_format
                  true
  end.
Proof.
  apply (espnet2_voice_synthesize _ recording_pipeline int_of_digits true
           (lit "Other") (lit "Hi") false (request "pcm" "16000" "Other")).
  repeat constructor; eexists; reflexivity.
Defined.

(** *** The route *)

Section RouteFacts.
Import App.
Variable polly_synthesize_speech :
  kwargs_t -> AppError + option (AppError + list N).
Variable fastspeech_synthesize : str -> AppError + list N.

Local Abbreviation route :=
  (route_synthesize_speech polly_synthesize_speech fastspeech_synthesize).

(** X26. For a voice that is not one of the three Polly voices, the route
    answers with audio only for the output format [pcm] and the text
    type [text]; the audio is what the local synthesizer made of the
    text, served as [audio/x-wav]. *)
Theorem route_local_voice kwargs voice_id content content_type :
  kwargs !! lit "VoiceId" = Some voice_id ->
  voice_id ∉ [lit "Dora"; lit "Karl"; lit "Joanna"] ->
  route kwargs = inr (Response content content_type) ->
  kwargs !! lit "OutputFormat" = Some (lit "pcm")
  /\ kwargs !! lit "TextType" = Some (lit "text")
  /\ content_type = lit "audio/x-wav"
  /\ exists text,
       kwargs !! lit "Text" = Some text
       /\ fastspeech_synthesize text = inr content.
Proof.
  intros Hv Hlocal. unfold route_synthesize_speech.
  destruct (kwargs !! lit "OutputFormat") as [fmt|]; [|done].
  rewrite Hv. rewrite bool_decide_eq_false_2 by done.
  case_bool_decide as Hfmt; [done|].
  subst fmt.
  destruct (kwargs !! lit "TextType") as [tt|]; [|done].
  case_bool_decide as Htt; [done|].
  subst tt.
  destruct (kwargs !! lit "Text") as [text|]; [|done].
  destruct (fastspeech_synthesize text) as [e|c] eqn:Hfs; [done|].
  intros [= <- <-]. repeat split. by exists text.
Qed.

(** For a Polly voice the route raises only if the call to Polly
    does: once Polly has answered, the reply is the audio with the
    content type of the requested format, or the error 400 when the
    answer has no stream or the stream cannot be read. *)
Theorem route_polly_voice kwargs output_format voice_id answer :
  kwargs !! lit "OutputFormat" = Some output_format ->
  kwargs !! lit "VoiceId" = Some voice_id ->
  voice_id ∈ [lit "Dora"; lit "Karl"; lit "Joanna"] ->
  polly_synthesize_speech kwargs = inr answer ->
  route kwargs
  = inr match answer with
        | Some (inr content) =>
            Response content (output_content_type output_format)
        | _ => BadRequest None
        end.
Proof.
  intros Hf Hv Hpolly Hanswer. unfold route_synthesize_speech.
  rewrite Hf, Hv, bool_decide_eq_true_2, Hanswer by done.
  by destruct answer as [[e|content]|].
Qed.

End RouteFacts.

(** X27. The content type the route serves an audio format with is the one
    [OutputFormat.content_type] gives it. *)
Theorem route_content_type_agrees fmt content_type :
  OutputFormat.content_type fmt = Some content_type ->
  App.output_content_type (OutputFormat.output_format fmt) = content_type.
Proof.
  unfold OutputFormat.content_type, App.output_content_type.
  repeat case_bool_decide; congruence.
Qed.

Lemma route_local_voice_witness :
  request "pcm" "16000" "Other" !! lit "OutputFormat" = Some (lit "pcm")
  /\ request "pcm" "16000" "Other" !! lit "TextType" = Some (lit "text")
  /\ lit "audio/x-wav" = lit "audio/x-wav"
  /\ exists text,
       request "pcm" "16000" "Other" !! lit "Text" = Some text
       /\ @inr App.AppError (list N) text = inr (lit "Hi").
Proof.
  apply (route_local_voice (fun _ => inl App.UpstreamError)
           (fun text => inr text) (request "pcm" "16000" "Other")
           (lit "Other") (lit "Hi") (lit "audio/x-wav")).
  - reflexivity.
  - match goal with |- ?P => apply (@bool_decide_unpack P _) end.
    vm_compute. exact I.
  - reflexivity.
Defined.

Lemma route_polly_voice_witness :
  App.route_synthesize_speech (fun _ => inr (Some (inl App.UpstreamError)))
    (fun text => inr text) (request "mp3" "16000" "Dora")
  = inr (App.BadRequest None).
Proof.
  apply (route_polly_voice (fun _ => inr (Some (inl App.UpstreamError)))
           (fun text => inr text) (request "mp3" "16000" "Dora")
           (lit "mp3") (lit "Dora") (Some (inl App.UpstreamError))).
  - reflexivity.
  - reflexivity.
  - apply list_elem_of_here.
  - reflexivity.
Defined.

Lemma route_content_type_agrees_witness :
  App.output_content_type (lit "ogg_vorbis") = lit "audio/ogg".
Proof.
  apply (route_content_type_agrees
           {| OutputFormat.output_format := lit "ogg_vorbis";
              OutputFormat.supported_sample_rates := [] |}
           (lit "audio/ogg")).
  reflexivity.
Defined.

End VoicesFacts.
